(** * hast-util-from-html: the parse-error reporter of [lib/index.js]

    A shallow embedding of [camelcase], of the [onerror] closure of
    [fromHtml] and of its inner [format], followed by the properties the
    specification states about them. *)

From Stdlib Require Import ZArith NArith QArith Qcanon List Ascii String Lia Bool.
From Stdlib Require Import DecimalString.
From stdpp Require Import base option list gmap.

Local Open Scope N_scope.

(** ** JavaScript strings

    A JS string is a sequence of UTF-16 code units.  A code unit is kept as
    an [N]; string literals of the source are written with [str]. *)

Definition code_unit : Type := N.
Definition jsstring : Type := list code_unit.

Definition str (s : string) : jsstring :=
  map N_of_ascii (list_ascii_of_string s).

Definition hyphen : code_unit := 45.      (* - *)
Definition plus_sign : code_unit := 43.   (* + *)
Definition percent : code_unit := 37.     (* % *)
Definition letter_c : code_unit := 99.    (* c *)
Definition letter_x : code_unit := 120.   (* x *)
Definition backtick : code_unit := 96.    (* ` *)

(** The character classes of the three regular expressions. *)
Definition is_lower (c : code_unit) : bool := (97 <=? c) && (c <=? 122).  (* [a-z] *)
Definition is_upper (c : code_unit) : bool := (65 <=? c) && (c <=? 90).   (* [A-Z] *)
Definition is_digit (c : code_unit) : bool := (48 <=? c) && (c <=? 57).   (* \d *)
Definition is_sign (c : code_unit) : bool := (c =? hyphen) || (c =? plus_sign). (* [-+] *)

(** [String.prototype.toUpperCase] and [toLowerCase], on the code units the
    program applies them to: one character matched by [[a-z]] or [[A-Z]],
    and the output of [Number.prototype.toString(16)], where only ASCII
    letters change. *)
Definition upper_unit (c : code_unit) : code_unit := if is_lower c then c - 32 else c.
Definition lower_unit (c : code_unit) : code_unit := if is_upper c then c + 32 else c.
Definition toUpperCase (s : jsstring) : jsstring := map upper_unit s.

(** ** [camelcase]

    [value.replace(/-[a-z]/g, ($0) => $0.charAt(1).toUpperCase())]: the
    scan goes left to right; where a hyphen is followed by a lower-case
    letter the two code units are replaced by the upper-cased letter and
    the scan resumes after them, any other code unit is copied. *)
Fixpoint camelcase (value : jsstring) : jsstring :=
  match value with
  | [] => []
  | c :: rest =>
      match rest with
      | d :: rest' =>
          if (c =? hyphen) && is_lower d
          then upper_unit d :: camelcase rest'
          else c :: camelcase rest
      | [] => [c]
      end
  end.

(** The inverse direction, as the documentation generator of the repository
    computes it: [key.replace(/[A-Z]/g, ($0) => '-' + $0.toLowerCase())]. *)
Fixpoint kebab (key : jsstring) : jsstring :=
  match key with
  | [] => []
  | c :: rest =>
      if is_upper c then hyphen :: lower_unit c :: kebab rest
      else c :: kebab rest
  end.

(** The normalizer in the words of the specification: every hyphen is
    removed and the character immediately following it is upper-cased. *)
Fixpoint remove_hyphens_upcase_next (code : jsstring) : jsstring :=
  match code with
  | [] => []
  | c :: rest =>
      if c =? hyphen then
        match rest with
        | d :: rest' => upper_unit d :: remove_hyphens_upcase_next rest'
        | [] => []
        end
      else c :: remove_hyphens_upcase_next rest
  end.

(** A hyphen-case rule code: non-empty words of lower-case ASCII letters,
    separated by single hyphens.  [in_word] tells whether the scan stands
    right after a letter. *)
Fixpoint hyphen_case_from (in_word : bool) (code : jsstring) : bool :=
  match code with
  | [] => in_word
  | c :: rest =>
      if is_lower c then hyphen_case_from true rest
      else if (c =? hyphen) && in_word then hyphen_case_from false rest
      else false
  end.

Definition hyphen_case (code : jsstring) : bool := hyphen_case_from false code.

Definition no_upper (s : jsstring) : Prop := Forall (fun c => is_upper c = false) s.

(** ** JavaScript values

    A JS number is an IEEE-754 double: NaN, the two infinities, negative
    zero, or a finite value.  Every finite double is a rational, so the
    finite values other than [-0] are carried by a canonical rational
    ([Finite 0] is [+0]); the program inspects a number only through
    [typeof], [ToBoolean] and its use as a property key. *)
Inductive JsNumber : Type :=
  | NaN
  | Infinity (negative : bool)
  | NegZero
  | Finite (q : Qc).

(** The integer [z] as a rational and as a JS number. *)
Definition Qc_of_Z (z : Z) : Qc := Q2Qc (inject_Z z).
Definition num (z : Z) : JsNumber := Finite (Qc_of_Z z).

Definition Qc_eqb (a b : Qc) : bool := Qeq_bool a b.

Inductive JsValue : Type :=
  | JUndefined
  | JNull
  | JBool (b : bool)
  | JNumber (n : JsNumber)
  | JString (s : jsstring)
  | JBigInt (z : Z)
  | JSymbol (id : nat)
  | JObject (ref : nat)          (* objects that cannot be called *)
  | JFunction (ref : nat).

Definition is_number (v : JsValue) : bool :=      (* typeof v === 'number' *)
  match v with JNumber _ => true | _ => false end.

Definition number_truthy (n : JsNumber) : bool :=
  match n with
  | NaN | NegZero => false
  | Infinity _ => true
  | Finite q => negb (Qc_eqb q (Qc_of_Z 0))
  end.

Definition ToBoolean (v : JsValue) : bool :=
  match v with
  | JUndefined | JNull => false
  | JBool b => b
  | JNumber n => number_truthy n
  | JString s => match s with [] => false | _ => true end
  | JBigInt z => negb (z =? 0)%Z
  | JSymbol _ | JObject _ | JFunction _ => true
  end.

(** The number is zero: [+0] or [-0]. *)
Definition is_zero (n : JsNumber) : bool :=
  match n with
  | NegZero => true
  | Finite q => Qc_eqb q (Qc_of_Z 0)
  | _ => false
  end.

(** ** Severity

    The options object is used as a map from its own property names to
    values; [options[name]] of a name that is not set is [undefined].  A
    name that the object only inherits from [Object.prototype] reads as a
    function or an object, a truthy value that is not a number: it resolves
    to level 1, as the missing setting does here. *)
Definition setting_of (options : gmap jsstring JsValue) (name : jsstring) : JsValue :=
  default JUndefined (options !! name).

(** [setting === undefined || setting === null ? true : setting] *)
Definition config_of (setting : JsValue) : JsValue :=
  match setting with
  | JUndefined | JNull => JBool true
  | _ => setting
  end.

(** [typeof config === 'number' ? config : config ? 1 : 0] *)
Definition level_of (config : JsValue) : JsNumber :=
  match config with
  | JNumber n => n
  | _ => if ToBoolean config then num 1 else num 0
  end.

Definition severity (options : gmap jsstring JsValue) (code : jsstring) : JsNumber :=
  level_of (config_of (setting_of options (camelcase code))).

(** The severities of the specification: 0, 1 and 2. *)
Definition in_severity_range (n : JsNumber) : Prop :=
  n = num 0 \/ n = num 1 \/ n = num 2.

(** [const fatalities = {2: true, 1: false, 0: null}], read as
    [fatalities[level]].  The number is turned into a property key by
    [ToString]: only the double 2 gives ["2"], only 1 gives ["1"], and both
    zeros give ["0"]; every other key is missing, which reads as
    [undefined]. *)
Definition fatalities (level : JsNumber) : JsValue :=
  match level with
  | Finite q =>
      if Qc_eqb q (Qc_of_Z 2) then JBool true
      else if Qc_eqb q (Qc_of_Z 1) then JBool false
      else if Qc_eqb q (Qc_of_Z 0) then JNull
      else JUndefined
  | NegZero => JNull
  | NaN | Infinity _ => JUndefined
  end.

(** ** Events, catalog entries and messages *)

(** The raw event of the parser ([@typedef Error]).  Lines, columns and
    offsets are integers. *)
Record Error : Type := {
  code : jsstring;
  startLine : Z;
  startCol : Z;
  startOffset : Z;
  endLine : Z;
  endCol : Z;
  endOffset : Z
}.

(** An entry of the catalog [errors] of [lib/errors.js].  The catalog is a
    parameter of the development, a map from normalized identifiers to
    entries; of an entry the program reads the templates [reason] and
    [description] and the field [url], which is either missing or present
    with some value. *)
Record RuleEntry : Type := {
  reason : jsstring;
  description : jsstring;
  url : option JsValue
}.

(** [{reason: '', description: '', url: ''}] *)
Definition fallback : RuleEntry :=
  {| reason := []; description := []; url := Some (JString []) |}.

Record Point : Type := { line : Z; column : Z; offset : Z }.
Record Position : Type := { start : Point; end_ : Point }.

(** The fields of the [VFileMessage] handed to the sink.  [m_url] is a
    string or [null] ([None]); [m_file] is present only for a file with a
    path. *)
Record VFileMessage : Type := {
  m_name : jsstring;
  m_message : jsstring;
  m_reason : jsstring;
  m_line : Z;
  m_column : Z;
  m_position : Position;
  m_source : jsstring;
  m_ruleId : jsstring;
  m_file : option jsstring;
  m_fatal : JsValue;
  m_note : jsstring;
  m_url : option jsstring
}.

Definition base : jsstring :=
  str "https://html.spec.whatwg.org/multipage/parsing.html#parse-error-".

(** ** Property lookup in the catalog

    [errors] is an ordinary object, so [errors[name]] finds the own entry of
    [name] and otherwise what every object inherits from
    [Object.prototype].  The inherited values are functions and, under
    [__proto__], the prototype object itself: all of them truthy, none with
    a property [reason], [description] or [url]. *)
Definition object_prototype_names : list jsstring :=
  map str
    [ "constructor"; "__defineGetter__"; "__defineSetter__"; "hasOwnProperty";
      "__lookupGetter__"; "__lookupSetter__"; "isPrototypeOf";
      "propertyIsEnumerable"; "toString"; "valueOf"; "__proto__";
      "toLocaleString" ]%string.

Definition inherited (name : jsstring) : bool :=
  bool_decide (name ∈ object_prototype_names).

Inductive CatalogValue : Type :=
  | OwnEntry (info : RuleEntry)
  | InheritedValue
  | NoValue.                     (* undefined *)

Definition errors_get (errors : gmap jsstring RuleEntry) (name : jsstring) : CatalogValue :=
  match errors !! name with
  | Some info => OwnEntry info
  | None => if inherited name then InheritedValue else NoValue
  end.

(** [errors[name] || {reason: '', description: '', url: ''}]: only
    [undefined] is replaced by the fallback.  [None] is an inherited value,
    an object without the fields of an entry. *)
Definition info_of (errors : gmap jsstring RuleEntry) (name : jsstring) : option RuleEntry :=
  match errors_get errors name with
  | OwnEntry info => Some info
  | InheritedValue => None
  | NoValue => Some fallback
  end.

(** ** Calls of the sink and ways to complete *)

(** One call [warn(message)]: the function called and its argument. *)
Record SinkCall : Type := { callee : nat; argument : VFileMessage }.

(** An expression evaluates to a value or raises a [TypeError]. *)
Inductive completion (A : Type) : Type :=
  | Normal (a : A)
  | TypeError.

Arguments Normal {A} a.
Arguments TypeError {A}.

(** What running code did: the calls of the sink it made, in order, and
    whether it returned or was left by an exception. *)
Inductive outcome : Type :=
  | Returns (calls : list SinkCall)
  | Throws (calls : list SinkCall).

Definition calls_of (o : outcome) : list SinkCall :=
  match o with
  | Returns calls | Throws calls => calls
  end.

(** The messages handed to the sink. *)
Definition sent (o : outcome) : list VFileMessage := map argument (calls_of o).

(** ** String primitives used by [format] *)

(** [s.charAt(pos)]: the one-unit string at an index inside the string, the
    empty string elsewhere. *)
Definition charAt (s : jsstring) (pos : Z) : jsstring :=
  if (pos <? 0)%Z then []
  else match s !! Z.to_nat pos with
       | Some c => [c]
       | None => []
       end.

(** [s.charCodeAt(pos)]: the code unit at the index, [NaN] ([None]) outside
    the string. *)
Definition charCodeAt (s : jsstring) (pos : Z) : option code_unit :=
  if (pos <? 0)%Z then None else s !! Z.to_nat pos.

(** The hexadecimal digit of a value below 16: [0-9a-f]. *)
Definition hex_digit (d : N) : code_unit := if d <? 10 then 48 + d else 87 + d.

(** The digits of [n] in radix 16, most significant first; [fuel] bounds
    their number. *)
Fixpoint radix16 (fuel : nat) (n : N) : jsstring :=
  match fuel with
  | O => []
  | S f => (if n <? 16 then [] else radix16 f (n / 16)) ++ [hex_digit (n mod 16)]
  end.

(** [n.toString(16)] for the result of [charCodeAt]: lower-case hexadecimal
    digits without leading zeros, ["NaN"] for [NaN].  A number has no more
    hexadecimal digits than binary ones. *)
Definition toString16 (n : option code_unit) : jsstring :=
  match n with
  | Some u => radix16 (S (N.to_nat (N.log2 u))) u
  | None => str "NaN"
  end.

(** The value of a string of hexadecimal digits [0-9A-F]. *)
Definition hex_digit_value (c : code_unit) : N := if c <? 58 then c - 48 else c - 55.
Definition hex_value (s : jsstring) : N :=
  fold_left (fun acc c => 16 * acc + hex_digit_value c) s 0.
Definition is_upper_hex_digit (c : code_unit) : bool :=
  is_digit c || ((65 <=? c) && (c <=? 70)).

(** [Number.parseInt(ds, 10)] on a run of decimal digits.  The value is kept
    exact: a double rounds a run above 2^53, but such an index lies beyond
    the end (or before the start) of every string either way. *)
Definition parseInt10 (ds : jsstring) : Z :=
  fold_left (fun acc d => (10 * acc + Z.of_N (d - 48))%Z) ds 0%Z.

(** The longest prefix of decimal digits: what a greedy [\d+] consumes. *)
Fixpoint digit_run (s : jsstring) : jsstring :=
  match s with
  | c :: r => if is_digit c then c :: digit_run r else []
  | [] => []
  end.

(** [/%c(?:([-+])(\d+))?/] tried at the head of [s].  [None]: no match here.
    [Some None]: [%c] matched and the optional group did not take part (both
    captures are [undefined]).  [Some (Some (sg, ds))]: the group matched
    with [$1 = sg] and [$2 = ds]. *)
Definition match_percent_c (s : jsstring) : option (option (code_unit * jsstring)) :=
  match s with
  | p :: c :: r =>
      if (p =? percent) && (c =? letter_c) then
        Some (match r with
              | sg :: r' =>
                  if is_sign sg then
                    match digit_run r' with
                    | [] => None
                    | ds => Some (sg, ds)
                    end
                  else None
              | [] => None
              end)
      else None
  | _ => None
  end.

(** Number of code units a match consumes. *)
Definition match_length (groups : option (code_unit * jsstring)) : nat :=
  match groups with
  | Some (_, ds) => (3 + length ds)%nat
  | None => 2%nat
  end.

(** [($2 ? Number.parseInt($2, 10) : 0) * ($1 === '-' ? -1 : 1)] *)
Definition offset_of (groups : option (code_unit * jsstring)) : Z :=
  match groups with
  | Some (sg, ds) => (parseInt10 ds * (if (sg =? hyphen)%N then -1 else 1))%Z
  | None => 0%Z
  end.

(** [char === '`' ? '` ` `' : char] *)
Definition escape (char : jsstring) : jsstring :=
  match char with
  | [c] => if c =? backtick then str "` ` `" else char
  | _ => char
  end.

(** ** [format] and [onerror]

    Both are closures: over the catalog, the options, the text [doc] of the
    file and its path, and [format] also over the event. *)
Section Reporter.

Context (errors : gmap jsstring RuleEntry).
Context (options : gmap jsstring JsValue).
Context (doc : jsstring).
Context (path : option jsstring).

Section Format.

Context (error : Error).

(** The replacement function of the first [replace]. *)
Definition replacement_c (groups : option (code_unit * jsstring)) : jsstring :=
  escape (charAt doc (startOffset error + offset_of groups)).

(** The replacement function of the second [replace]. *)
Definition replacement_x : jsstring :=
  str "0x" ++ toUpperCase (toString16 (charCodeAt doc (startOffset error))).

(** [value.replace(/%c(?:([-+])(\d+))?/g, ...)].  The global replace
    tries the pattern at each index from left to right; after a match
    it resumes behind the matched text, which [skip] counts down. *)
Fixpoint replace_percent_c (skip : nat) (value : jsstring) : jsstring :=
  match value with
  | [] => []
  | c :: rest =>
      match skip with
      | S k => replace_percent_c k rest
      | 0%nat =>
          match match_percent_c value with
          | Some groups =>
              replacement_c groups
                ++ replace_percent_c (match_length groups - 1)%nat rest
          | None => c :: replace_percent_c 0%nat rest
          end
      end
  end.

(** [value.replace(/%x/g, ...)] *)
Fixpoint replace_percent_x (value : jsstring) : jsstring :=
  match value with
  | [] => []
  | c :: rest =>
      match rest with
      | d :: rest' =>
          if (c =? percent) && (d =? letter_x)
          then replacement_x ++ replace_percent_x rest'
          else c :: replace_percent_x rest
      | [] => [c]
      end
  end.

Definition format (value : jsstring) : jsstring :=
  replace_percent_x (replace_percent_c 0%nat value).

End Format.

(** [unist-util-stringify-position] on [{start, end}], which names the
    message: [index(v)] is [v] for a non-zero number and [1] otherwise. *)
Definition index (v : Z) : jsstring :=
  str (DecimalString.NilZero.string_of_int (Z.to_int (if (v =? 0)%Z then 1%Z else v))).

Definition stringify_point (p : Point) : jsstring :=
  index (line p) ++ str ":" ++ index (column p).

Definition stringifyPosition (pos : Position) : jsstring :=
  stringify_point (start pos) ++ str "-" ++ stringify_point (end_ pos).

(** [if (file.path)]: a path that is set and not empty. *)
Definition file_path : option jsstring :=
  match path with
  | Some ((_ :: _) as p) => Some p
  | _ => None
  end.

(** ['url' in info && info.url === false] *)
Definition url_suppressed (info : RuleEntry) : bool :=
  match url info with
  | Some (JBool false) => true
  | _ => false
  end.

(** The message built inside [if (level)] from the entry [info]. *)
Definition build_message (info : RuleEntry) (error : Error) (level : JsNumber) : VFileMessage :=
  let start :=
    {| line := startLine error; column := startCol error; offset := startOffset error |} in
  let end_ :=
    {| line := endLine error; column := endCol error; offset := endOffset error |} in
  let text := format error (reason info) in
  let place := {| start := start; end_ := end_ |} in
  {| m_name :=
       match file_path with
       | Some p => p ++ str ":" ++ stringifyPosition place
       | None => stringifyPosition place
       end;
     m_message := text;
     m_reason := text;
     m_line := line start;
     m_column := column start;
     m_position := place;
     m_source := str "parse-error";
     m_ruleId := code error;
     m_file := file_path;
     m_fatal := fatalities level;
     m_note := format error (description info);
     m_url := if url_suppressed info then None else Some (base ++ code error) |}.

(** Lines 99 to 111.  With an inherited value for [info], [info.reason] is
    [undefined] and [format(info.reason)] raises a [TypeError] at
    [value.replace], before the message exists. *)
Definition message_of (error : Error) (level : JsNumber) : completion VFileMessage :=
  match info_of errors (camelcase (code error)) with
  | Some info => Normal (build_message info error level)
  | None => TypeError
  end.

(** [const warn = options.onerror || null] *)
Definition warn : JsValue :=
  let v := setting_of options (str "onerror") in
  if ToBoolean v then v else JNull.

(** [onerror(error)].  A truthy level builds the message and then calls
    [warn(message)], which raises a [TypeError] unless [warn] is a
    function. *)
Definition onerror (error : Error) : outcome :=
  let level := severity options (code error) in
  if number_truthy level then
    match message_of error level with
    | Normal message =>
        match warn with
        | JFunction f => Returns [ {| callee := f; argument := message |} ]
        | _ => Throws []
        end
    | TypeError => Throws []
    end
  else Returns [].

(** The parser calls [onParseError] once per event, in order; an exception
    raised by the callback leaves the parser and [fromHtml], so the later
    events are not reported. *)
Fixpoint parse_events (events : list Error) : outcome :=
  match events with
  | [] => Returns []
  | error :: rest =>
      match onerror error with
      | Returns calls =>
          match parse_events rest with
          | Returns more => Returns (calls ++ more)
          | Throws more => Throws (calls ++ more)
          end
      | Throws calls => Throws calls
      end
  end.

(** The parser is handed [onerror] only if [options.onerror] is set
    ([onParseError: options.onerror ? onerror : null]). *)
Definition reported (events : list Error) : outcome :=
  if ToBoolean (setting_of options (str "onerror"))
  then parse_events events
  else Returns [].

End Reporter.

(** ** Placeholders, as the specification describes them *)

(** The text of a [%c] placeholder: [%c] alone ([None]), or [%c] followed by
    a sign and a run of decimal digits. *)
Definition placeholder_text (groups : option (code_unit * jsstring)) : jsstring :=
  percent :: letter_c ::
    match groups with
    | Some (sg, ds) => sg :: ds
    | None => []
    end.

(** The sign is [+] or [-] and the digit run is not empty. *)
Definition well_formed (groups : option (code_unit * jsstring)) : bool :=
  match groups with
  | Some (sg, ds) =>
      is_sign sg && forallb is_digit ds && match ds with [] => false | _ => true end
  | None => true
  end.

(** The text that follows does not prolong the placeholder: no further
    digit after a digit run, no sign and digit after a bare [%c]. *)
Definition ends_placeholder (groups : option (code_unit * jsstring)) (post : jsstring) : bool :=
  match groups, post with
  | Some _, c :: _ => negb (is_digit c)
  | None, sg :: d :: _ => negb (is_sign sg && is_digit d)
  | _, _ => true
  end.

(** No [%] of the text starts a placeholder of either kind. *)
Fixpoint no_placeholder (s : jsstring) : bool :=
  match s with
  | [] => true
  | c :: rest =>
      match rest with
      | d :: _ => negb ((c =? percent) && ((d =? letter_c) || (d =? letter_x)))
      | [] => true
      end && no_placeholder rest
  end.

(** ** Sample data

    A few entries of the catalog, as the expectations of [test/index.js]
    show them (the rendered notes fix the templates up to the placeholder
    that produced the source character), and the events of those tests. *)
Definition entry (reason description : string) (url : option JsValue) : RuleEntry :=
  {| reason := str reason; description := str description; url := url |}.

Definition sample_errors : gmap jsstring RuleEntry :=
  list_to_map
    [ (str "missingDoctype",
       entry "Missing doctype before other content"
             "Expected a `<!doctype html>` before anything else" (Some (JBool false)));
      (str "unknownNamedCharacterReference",
       entry "Unexpected unknown named character reference"
             "Unexpected character reference. Expected known named character references" None);
      (str "endTagWithTrailingSolidus",
       entry "Unexpected slash at end of closing tag"
             "Unexpected `%c-1`. Expected `>` instead" None);
      (str "invalidFirstCharacterOfTagName",
       entry "Invalid first character in tag name"
             "Unexpected `%c`. Expected an ASCII letter instead" None);
      (str "unexpectedNullCharacter",
       entry "Unexpected NULL character"
             "Unexpected code point `%x`. Do not use NULL characters in HTML" None);
      (str "surrogateInInputStream",
       entry "Unexpected surrogate character"
             "Unexpected code point `%x`. Do not use lone surrogate characters in HTML" None) ].

(** An event whose span is empty, as the parser reports the errors above. *)
Definition event_at (code : string) (line column offset : Z) : Error :=
  {| code := str code;
     startLine := line; startCol := column; startOffset := offset;
     endLine := line; endCol := column; endOffset := offset |}.

(** Options with a sink and one override. *)
Definition sink : JsValue := JFunction 0.
Definition with_sink (overrides : list (jsstring * JsValue)) : gmap jsstring JsValue :=
  <[ str "onerror" := sink ]> (list_to_map overrides).

(** The message the tests expect for a text without doctype. *)
Definition expected_missing_doctype (name : string) (file : option jsstring) : VFileMessage :=
  {| m_name := str name;
     m_message := str "Missing doctype before other content";
     m_reason := str "Missing doctype before other content";
     m_line := 1; m_column := 1;
     m_position :=
       {| start := {| line := 1; column := 1; offset := 0 |};
          end_ := {| line := 1; column := 1; offset := 0 |} |};
     m_source := str "parse-error";
     m_ruleId := str "missing-doctype";
     m_file := file;
     m_fatal := JBool false;
     m_note := str "Expected a `<!doctype html>` before anything else";
     m_url := None |}.

(** ** Keys of the catalog and the documentation generator

    [script/parse-error.js] lists the catalog in the readme.  For each
    [key] it computes the rule code back with [kebab] and links the item to
    [whatwg + kebab] unless the entry has [url: false]. *)

(** A catalog key: ASCII letters only, the first one in lower case. *)
Definition is_letter (c : code_unit) : bool := is_lower c || is_upper c.

Definition camel_key (key : jsstring) : bool :=
  match key with
  | c :: rest => is_lower c && forallb is_letter rest
  | [] => false
  end.

(** The number of indices at which [/-[a-z]/] matches.  Two matches cannot
    overlap, since the second code unit of a match is not a hyphen. *)
Fixpoint hyphen_matches (s : jsstring) : nat :=
  match s with
  | [] => 0%nat
  | c :: rest =>
      let here :=
        match rest with
        | d :: _ => if (c =? hyphen) && is_lower d then 1%nat else 0%nat
        | [] => 0%nat
        end in
      (here + hyphen_matches rest)%nat
  end.

(** [const whatwg] of the script, the same text as [base]. *)
Definition whatwg : jsstring :=
  str "https://html.spec.whatwg.org/multipage/parsing.html#parse-error-".

(** The target of the link the script puts around the head of the list
    item of [key]; [None] when the head is left as plain inline code
    (['url' in info && info.url === false ? head : u('link', {url: whatwg + kebab}, [head])]). *)
Definition list_item_link (info : RuleEntry) (key : jsstring) : option jsstring :=
  if url_suppressed info then None else Some (whatwg ++ kebab key).

(** ** Templates as sequences of pieces

    A template cut where a single left-to-right scan would cut it: plain
    text, [%c] placeholders with their captures, and [%x] placeholders. *)
Inductive piece : Type :=
  | Text (s : jsstring)
  | PlaceC (groups : option (code_unit * jsstring))
  | PlaceX.

Definition piece_text (p : piece) : jsstring :=
  match p with
  | Text s => s
  | PlaceC groups => placeholder_text groups
  | PlaceX => str "%x"
  end.

Definition template_text (t : list piece) : jsstring := flat_map piece_text t.

Definition no_percent (s : jsstring) : bool := forallb (fun c => negb (c =? percent)) s.

(** The text pieces hold no [%], and every [%c] placeholder is well formed
    and ends where the next piece begins. *)
Fixpoint well_placed (t : list piece) : bool :=
  match t with
  | [] => true
  | p :: rest =>
      match p with
      | Text s => no_percent s
      | PlaceC groups => well_formed groups && ends_placeholder groups (template_text rest)
      | PlaceX => true
      end && well_placed rest
  end.

(** What one scan over the pieces writes: each piece on its own. *)
Definition render_piece (doc : jsstring) (error : Error) (p : piece) : jsstring :=
  match p with
  | Text s => s
  | PlaceC groups => replacement_c doc error groups
  | PlaceX => replacement_x doc error
  end.

Definition render (doc : jsstring) (error : Error) (t : list piece) : jsstring :=
  flat_map (render_piece doc error) t.

(** The placeholder selects a [%] of the source text. *)
Definition selects_percent (doc : jsstring) (error : Error) (p : piece) : bool :=
  match p with
  | PlaceC groups =>
      match charAt doc (startOffset error + offset_of groups) with
      | [c] => c =? percent
      | _ => false
      end
  | _ => false
  end.

(** ** Messages and their events *)

(** The range [{start, end}] that [onerror] builds from an event. *)
Definition place_of (error : Error) : Position :=
  {| start := {| line := startLine error; column := startCol error;
                 offset := startOffset error |};
     end_ := {| line := endLine error; column := endCol error;
                offset := endOffset error |} |}.

(** A message with its field [fatal] blanked. *)
Definition without_fatal (m : VFileMessage) : VFileMessage :=
  {| m_name := m_name m; m_message := m_message m; m_reason := m_reason m;
     m_line := m_line m; m_column := m_column m; m_position := m_position m;
     m_source := m_source m; m_ruleId := m_ruleId m; m_file := m_file m;
     m_fatal := JUndefined; m_note := m_note m; m_url := m_url m |}.

(** * Properties *)

(** ** Character classes *)

Ltac class_cases :=
  unfold upper_unit, lower_unit, is_lower, is_upper, is_digit, is_sign,
    hyphen, plus_sign, percent, letter_c, letter_x, backtick in *;
  repeat match goal with
    | |- context [N.leb ?a ?b] => destruct (N.leb_spec a b)
    | |- context [N.eqb ?a ?b] => destruct (N.eqb_spec a b)
    | H : context [N.leb ?a ?b] |- _ => destruct (N.leb_spec a b)
    | H : context [N.eqb ?a ?b] |- _ => destruct (N.eqb_spec a b)
    end;
  simpl in *; try congruence; try lia.

Lemma upper_of_lower_is_upper d : is_lower d = true -> is_upper (upper_unit d) = true.
Proof. class_cases. Qed.

Lemma lower_upper_unit d : is_lower d = true -> lower_unit (upper_unit d) = d.
Proof. class_cases. Qed.

Lemma lower_not_upper c : is_lower c = true -> is_upper c = false.
Proof. class_cases. Qed.

Lemma lower_not_hyphen c : is_lower c = true -> (c =? hyphen) = false.
Proof. class_cases. Qed.

Lemma hyphen_not_upper c : (c =? hyphen) = true -> is_upper c = false.
Proof. class_cases. Qed.

(** ** [camelcase] *)

(** [kebab] undoes [camelcase] on every string without upper-case ASCII
    letters.  The statement is doubled so that the induction follows the
    two-unit look-ahead of [camelcase]. *)
Lemma kebab_camelcase_two_step (s : jsstring) :
  (no_upper s -> kebab (camelcase s) = s) /\
  (forall c, no_upper (c :: s) -> kebab (camelcase (c :: s)) = c :: s).
Proof.
  induction s as [|d s' [IHs IHcons]]; split.
  - reflexivity.
  - intros c Hc. apply Forall_inv in Hc. simpl. now rewrite Hc.
  - apply IHcons.
  - intros c Hc.
    pose proof (Forall_inv Hc) as Hcu. apply Forall_inv_tail in Hc.
    change (camelcase (c :: d :: s'))
      with (if (c =? hyphen) && is_lower d
            then upper_unit d :: camelcase s'
            else c :: camelcase (d :: s')).
    destruct ((c =? hyphen) && is_lower d) eqn:Hm.
    + apply andb_true_iff in Hm as [Hh Hl].
      apply N.eqb_eq in Hh. subst c.
      cbn [kebab]. rewrite (upper_of_lower_is_upper _ Hl), (lower_upper_unit _ Hl).
      rewrite IHs; [reflexivity | now apply Forall_inv_tail in Hc].
    + cbn [kebab]. rewrite Hcu. now rewrite IHcons.
Qed.

Lemma kebab_camelcase (s : jsstring) : no_upper s -> kebab (camelcase s) = s.
Proof. apply kebab_camelcase_two_step. Qed.

Lemma hyphen_case_from_no_upper (s : jsstring) :
  forall in_word, hyphen_case_from in_word s = true -> no_upper s.
Proof.
  induction s as [|c s IH]; intros in_word H; [constructor|].
  simpl in H. destruct (is_lower c) eqn:Hl.
  - constructor; [now apply lower_not_upper | exact (IH _ H)].
  - destruct ((c =? hyphen) && in_word) eqn:Hh; [|discriminate].
    apply andb_true_iff in Hh as [Hh _].
    constructor; [now apply hyphen_not_upper | exact (IH _ H)].
Qed.

(** On a hyphen-case code every hyphen is followed by a lower-case letter,
    so the pattern [/-[a-z]/] fires at each hyphen. *)
Lemma camelcase_removes_hyphens_two_step (s : jsstring) :
  (forall in_word, hyphen_case_from in_word s = true ->
     camelcase s = remove_hyphens_upcase_next s) /\
  (forall c in_word, hyphen_case_from in_word (c :: s) = true ->
     camelcase (c :: s) = remove_hyphens_upcase_next (c :: s)).
Proof.
  induction s as [|d s' [IHs IHcons]]; split.
  - reflexivity.
  - intros c in_word H. simpl in H. cbn.
    destruct (is_lower c) eqn:Hl.
    + now rewrite (lower_not_hyphen _ Hl).
    + destruct ((c =? hyphen) && in_word); discriminate.
  - apply IHcons.
  - intros c in_word H.
    change (camelcase (c :: d :: s'))
      with (if (c =? hyphen) && is_lower d
            then upper_unit d :: camelcase s'
            else c :: camelcase (d :: s')).
    cbn [remove_hyphens_upcase_next].
    cbn [hyphen_case_from] in H.
    destruct (is_lower c) eqn:Hl.
    + rewrite (lower_not_hyphen _ Hl). simpl andb. cbv iota.
      f_equal. exact (IHcons d true H).
    + destruct ((c =? hyphen) && in_word) eqn:Hh; [|discriminate].
      apply andb_true_iff in Hh as [Hh _]. rewrite Hh.
      destruct (is_lower d) eqn:Hd.
      * simpl andb. cbv iota. f_equal. exact (IHs true H).
      * rewrite andb_false_r in H. discriminate.
Qed.

Lemma kebab_camelcase_hyphen_case (code : jsstring) :
  hyphen_case code = true -> kebab (camelcase code) = code.
Proof.
  intros H. apply kebab_camelcase. exact (hyphen_case_from_no_upper _ _ H).
Qed.

(** C8. On a hyphen-case rule code (non-empty words of lower-case ASCII
    letters separated by single hyphens) [camelcase] returns the code with
    every hyphen removed and the character following it upper-cased, and
    two hyphen-case codes with the same normal form are the same code. *)
Theorem camelcase_hyphen_case (code1 code2 : jsstring) :
  hyphen_case code1 = true -> hyphen_case code2 = true ->
  camelcase code1 = remove_hyphens_upcase_next code1 /\
  (camelcase code1 = camelcase code2 -> code1 = code2).
Proof.
  intros H1 H2. split.
  - exact (proj1 (camelcase_removes_hyphens_two_step code1) false H1).
  - intros Heq.
    rewrite <- (kebab_camelcase_hyphen_case code1 H1).
    rewrite <- (kebab_camelcase_hyphen_case code2 H2).
    now rewrite Heq.
Qed.

Lemma camelcase_hyphen_case_witness :
  camelcase (str "end-tag-with-trailing-solidus")
    = remove_hyphens_upcase_next (str "end-tag-with-trailing-solidus") /\
  (camelcase (str "end-tag-with-trailing-solidus") = camelcase (str "missing-doctype") ->
   str "end-tag-with-trailing-solidus" = str "missing-doctype").
Proof.
  apply (camelcase_hyphen_case (str "end-tag-with-trailing-solidus") (str "missing-doctype"));
    reflexivity.
Defined.

Example camelcase_solidus :
  camelcase (str "end-tag-with-trailing-solidus") = str "endTagWithTrailingSolidus".
Proof. reflexivity. Qed.

(** Outside the hyphen-case codes the pattern leaves a hyphen that is not
    followed by a lower-case letter in place. *)
Example camelcase_keeps_other_hyphens :
  camelcase (str "a-1-B-") = str "a-1-B-".
Proof. reflexivity. Qed.

(** ** Numbers *)

Lemma Qc_eqb_eq (a b : Qc) : Qc_eqb a b = true <-> a = b.
Proof.
  unfold Qc_eqb. rewrite Qeq_bool_iff. split.
  - apply Qc_is_canon.
  - intros ->. reflexivity.
Qed.

Lemma Qc_eqb_refl (a : Qc) : Qc_eqb a a = true.
Proof. now apply Qc_eqb_eq. Qed.

Lemma Qc_of_Z_inj (a b : Z) : Qc_of_Z a = Qc_of_Z b -> a = b.
Proof.
  intros H. apply (f_equal this) in H. unfold Qc_of_Z, Q2Qc in H. cbn [this] in H.
  apply inject_Z_injective.
  now rewrite <- (Qred_correct (inject_Z a)), <- (Qred_correct (inject_Z b)), H.
Qed.

Lemma Finite_inj (a b : Qc) : Finite a = Finite b -> a = b.
Proof.
  intros H. exact (f_equal (fun n => match n with Finite q => q | _ => a end) H).
Qed.

Lemma num_inj (a b : Z) : num a = num b -> a = b.
Proof. intros H. now apply Qc_of_Z_inj, Finite_inj. Qed.

(** [ToBoolean] of a number: false exactly on the zeros and on [NaN]. *)
Lemma number_truthy_spec (n : JsNumber) :
  number_truthy n = false <-> is_zero n = true \/ n = NaN.
Proof.
  destruct n as [| neg | | q]; simpl.
  - split; auto.
  - split; [discriminate | intros [H|H]; discriminate].
  - split; auto.
  - destruct (Qc_eqb q (Qc_of_Z 0)); simpl; split; auto;
      intros [H|H]; discriminate.
Qed.

(** ** Severity *)

Lemma severity_unfold (options : gmap jsstring JsValue) (code : jsstring) :
  severity options code
    = level_of (config_of (default JUndefined (options !! camelcase code))).
Proof. reflexivity. Qed.

(** C1. Default, then coerce: a setting that is absent, [null] or
    [undefined] resolves to 1; a number is returned unchanged; any other
    truthy value gives 1 and any other falsy value (one that is not [null]
    or [undefined], which the first clause covers) gives 0. *)
Theorem severity_default_then_coerce
    (options : gmap jsstring JsValue) (code : jsstring) (v : option JsValue) :
  options !! camelcase code = v ->
  (v = None \/ v = Some JNull \/ v = Some JUndefined ->
     severity options code = num 1) /\
  (forall n, v = Some (JNumber n) -> severity options code = n) /\
  (forall w, v = Some w -> is_number w = false -> ToBoolean w = true ->
     severity options code = num 1) /\
  (forall w, v = Some w -> is_number w = false -> w <> JNull -> w <> JUndefined ->
     ToBoolean w = false -> severity options code = num 0).
Proof.
  intros Hv. rewrite severity_unfold, Hv.
  repeat split.
  - intros [-> | [-> | ->]]; reflexivity.
  - intros n ->. reflexivity.
  - intros w -> Hn Ht. destruct w; try discriminate; simpl in *;
      try reflexivity; now rewrite ?Ht.
  - intros w -> Hn Hnull Hundef Hf. destruct w; try discriminate; try congruence;
      simpl in *; now rewrite ?Hf.
Qed.

Lemma severity_default_then_coerce_witness :
  let options : gmap jsstring JsValue :=
    {[ str "missingDoctype" := JBool false ]} in
  severity options (str "missing-doctype") = num 0 /\
  severity options (str "end-tag-with-trailing-solidus") = num 1.
Proof.
  intros options. split.
  - destruct (severity_default_then_coerce options (str "missing-doctype")
                (Some (JBool false)) eq_refl) as (_ & _ & _ & Hfalsy).
    apply (Hfalsy (JBool false)); [reflexivity | reflexivity | discriminate | discriminate | reflexivity].
  - destruct (severity_default_then_coerce options (str "end-tag-with-trailing-solidus")
                None eq_refl) as (Hdefault & _).
    apply Hdefault. left. reflexivity.
Defined.

(** A numeric setting outside 0, 1, 2 is not coerced: it is the level. *)
Lemma severity_three_not_in_range :
  severity {[ str "missingDoctype" := JNumber (num 3) ]} (str "missing-doctype") = num 3 /\
  ~ in_severity_range
      (severity {[ str "missingDoctype" := JNumber (num 3) ]} (str "missing-doctype")).
Proof.
  split; [reflexivity|].
  change (severity _ _) with (num 3).
  intros [H | [H | H]]; apply num_inj in H; discriminate.
Qed.

(** C4, amended. A setting that is not a number (absent, [null],
    [undefined], a boolean, or a malformed value such as a string or an
    object) is coerced to 0 or 1; a number is not coerced but returned as it
    is, so the level lies in {0, 1, 2} exactly when that number does. *)
Theorem severity_range
    (options : gmap jsstring JsValue) (code : jsstring) (v : JsValue) :
  setting_of options (camelcase code) = v ->
  (is_number v = false ->
     severity options code = num 0 \/ severity options code = num 1) /\
  (forall n, v = JNumber n ->
     severity options code = n /\
     (in_severity_range (severity options code) <-> in_severity_range n)).
Proof.
  intros Hv. unfold severity. rewrite Hv. split.
  - intros Hn. destruct v; try discriminate; simpl;
      try (right; reflexivity); try (left; reflexivity).
    + destruct b; [right | left]; reflexivity.
    + destruct s; [left | right]; reflexivity.
    + destruct (negb (z =? 0)%Z); [right | left]; reflexivity.
  - intros n ->. simpl. split; [reflexivity | tauto].
Qed.

Lemma severity_range_witness :
  (severity {[ str "missingDoctype" := JString (str "off") ]} (str "missing-doctype") = num 0 \/
   severity {[ str "missingDoctype" := JString (str "off") ]} (str "missing-doctype") = num 1) /\
  severity {[ str "missingDoctype" := JNumber (num 2) ]} (str "missing-doctype") = num 2.
Proof.
  split.
  - destruct (severity_range {[ str "missingDoctype" := JString (str "off") ]}
                (str "missing-doctype") (JString (str "off"))) as [Hcoerced _];
      [reflexivity|].
    apply Hcoerced. reflexivity.
  - destruct (severity_range {[ str "missingDoctype" := JNumber (num 2) ]}
                (str "missing-doctype") (JNumber (num 2))) as [_ Hnumber];
      [reflexivity|].
    apply (Hnumber (num 2) eq_refl).
Defined.

(** ** The table [fatalities] *)

Lemma fatalities_true (n : JsNumber) : fatalities n = JBool true <-> n = num 2.
Proof.
  destruct n as [| neg | | q]; simpl; try (split; discriminate).
  destruct (Qc_eqb q (Qc_of_Z 2)) eqn:E2.
  - apply Qc_eqb_eq in E2. subst q. split; reflexivity.
  - split.
    + destruct (Qc_eqb q (Qc_of_Z 1)); [discriminate|].
      destruct (Qc_eqb q (Qc_of_Z 0)); discriminate.
    + intros H. apply Finite_inj in H. subst q.
      rewrite Qc_eqb_refl in E2. discriminate.
Qed.

Lemma fatalities_false (n : JsNumber) : fatalities n = JBool false <-> n = num 1.
Proof.
  destruct n as [| neg | | q]; simpl; try (split; discriminate).
  destruct (Qc_eqb q (Qc_of_Z 2)) eqn:E2.
  - apply Qc_eqb_eq in E2. subst q. split; [discriminate|].
    intros H. apply num_inj in H. discriminate.
  - destruct (Qc_eqb q (Qc_of_Z 1)) eqn:E1.
    + apply Qc_eqb_eq in E1. subst q. split; reflexivity.
    + split.
      * destruct (Qc_eqb q (Qc_of_Z 0)); discriminate.
      * intros H. apply Finite_inj in H. subst q.
        rewrite Qc_eqb_refl in E1. discriminate.
Qed.

Lemma fatalities_null (n : JsNumber) : fatalities n = JNull -> number_truthy n = false.
Proof.
  destruct n as [| neg | | q]; simpl; try reflexivity; try discriminate.
  destruct (Qc_eqb q (Qc_of_Z 2)); [discriminate|].
  destruct (Qc_eqb q (Qc_of_Z 1)); [discriminate|].
  destruct (Qc_eqb q (Qc_of_Z 0)); [reflexivity | discriminate].
Qed.

(** ** [onerror] *)

Section ReporterFacts.

Context (errors : gmap jsstring RuleEntry).
Context (options : gmap jsstring JsValue).
Context (doc : jsstring).
Context (path : option jsstring).

(** Whatever reaches the sink was built for a truthy level, from the own
    entry of the rule or from the fallback. *)
Lemma onerror_inv (error : Error) (m : VFileMessage) :
  In m (sent (onerror errors options doc path error)) ->
  number_truthy (severity options (code error)) = true /\
  exists info,
    info_of errors (camelcase (code error)) = Some info /\
    m = build_message doc path info error (severity options (code error)).
Proof.
  unfold onerror, message_of. destruct (number_truthy _); [|intros []].
  destruct (info_of errors _) as [info|]; [|intros []].
  destruct (warn options); cbn [sent calls_of map In argument]; try tauto.
  intros [<- | []]. split; [reflexivity|]. now exists info.
Qed.

Lemma onerror_truthy (error : Error) (f : nat) (info : RuleEntry) :
  number_truthy (severity options (code error)) = true ->
  warn options = JFunction f ->
  info_of errors (camelcase (code error)) = Some info ->
  onerror errors options doc path error
    = Returns [ {| callee := f;
                   argument := build_message doc path info error
                                 (severity options (code error)) |} ].
Proof. unfold onerror, message_of. now intros -> -> ->. Qed.

Lemma onerror_falsy (error : Error) :
  number_truthy (severity options (code error)) = false ->
  onerror errors options doc path error = Returns [].
Proof. unfold onerror. now intros ->. Qed.

Lemma parse_events_inv (events : list Error) (m : VFileMessage) :
  In m (sent (parse_events errors options doc path events)) ->
  exists error, In error events /\ In m (sent (onerror errors options doc path error)).
Proof.
  induction events as [|error events IH]; [intros []|].
  cbn [parse_events].
  destruct (onerror errors options doc path error) as [calls | calls] eqn:Hon.
  - intros H.
    assert (Hsplit : In m (map argument calls)
                     \/ In m (sent (parse_events errors options doc path events))).
    { destruct (parse_events errors options doc path events);
        unfold sent in *; cbn [calls_of] in *;
        rewrite map_app in H; apply in_app_iff in H; exact H. }
    destruct Hsplit as [Hhere | Hlater].
    + exists error. split; [now left | rewrite Hon; exact Hhere].
    + destruct (IH Hlater) as (e & He & Hm). exists e. split; [now right | exact Hm].
  - intros H. exists error. split; [now left | rewrite Hon; exact H].
Qed.

Lemma reported_inv (events : list Error) (m : VFileMessage) :
  In m (sent (reported errors options doc path events)) ->
  exists error, In error events /\ In m (sent (onerror errors options doc path error)).
Proof.
  unfold reported. destruct (ToBoolean _); [|intros []].
  apply parse_events_inv.
Qed.

End ReporterFacts.

(** With [NaN] as the setting the level is [NaN]: not zero, yet falsy, so
    the sink is not called. *)
Lemma sink_not_called_on_NaN :
  severity (with_sink [(str "missingDoctype", JNumber NaN)]) (str "missing-doctype") = NaN /\
  is_zero (severity (with_sink [(str "missingDoctype", JNumber NaN)]) (str "missing-doctype"))
    = false /\
  onerror sample_errors (with_sink [(str "missingDoctype", JNumber NaN)]) (str "a") None
    (event_at "missing-doctype" 1 1 0) = Returns [].
Proof. split; [reflexivity | split; reflexivity]. Qed.

(** C2, amended. The sink is not called when the level is falsy, that is 0
    (either zero) or [NaN].  For every other level, when the sink is a
    function and the catalog lookup gives the own entry of the rule or
    nothing (rather than a property inherited from [Object.prototype]),
    the sink is called exactly once, with the assembled message, and
    [onerror] returns.  Under an override [false] or [0] no message for
    that rule code ever reaches the sink, whatever the sequence of
    events. *)
Theorem sink_called_once_unless_falsy
    (errors : gmap jsstring RuleEntry) (options : gmap jsstring JsValue)
    (doc : jsstring) (path : option jsstring) (error : Error) :
  (is_zero (severity options (code error)) = true \/ severity options (code error) = NaN ->
     onerror errors options doc path error = Returns []) /\
  (is_zero (severity options (code error)) = false -> severity options (code error) <> NaN ->
     forall f info,
       warn options = JFunction f ->
       info_of errors (camelcase (code error)) = Some info ->
       onerror errors options doc path error
         = Returns [ {| callee := f;
                        argument := build_message doc path info error
                                      (severity options (code error)) |} ]) /\
  (options !! camelcase (code error) = Some (JBool false) \/
   options !! camelcase (code error) = Some (JNumber (num 0)) ->
     forall events m,
       In m (sent (reported errors options doc path events)) -> m_ruleId m <> code error).
Proof.
  repeat split.
  - intros H. apply onerror_falsy. now apply number_truthy_spec.
  - intros Hz Hn f info Hwarn Hinfo. apply onerror_truthy; try assumption.
    destruct (number_truthy _) eqn:E; [reflexivity|].
    apply number_truthy_spec in E as [E | E]; congruence.
  - intros Hoff events m Hm Hid.
    apply reported_inv in Hm as (e & _ & Hm).
    apply onerror_inv in Hm as (Ht & info & _ & ->).
    cbn [m_ruleId build_message] in Hid. rewrite Hid in Ht.
    rewrite severity_unfold in Ht.
    destruct Hoff as [Hoff | Hoff]; rewrite Hoff in Ht; discriminate.
Qed.

Lemma sink_called_once_unless_falsy_witness :
  onerror sample_errors (with_sink [(str "missingDoctype", JBool false)]) (str "a") None
    (event_at "missing-doctype" 1 1 0) = Returns [] /\
  onerror sample_errors (with_sink []) (str "a") None (event_at "missing-doctype" 1 1 0)
    = Returns [ {| callee := 0%nat; argument := expected_missing_doctype "1:1-1:1" None |} ].
Proof.
  split.
  - apply (sink_called_once_unless_falsy sample_errors
             (with_sink [(str "missingDoctype", JBool false)]) (str "a") None
             (event_at "missing-doctype" 1 1 0)).
    left. reflexivity.
  - destruct (sink_called_once_unless_falsy sample_errors (with_sink []) (str "a") None
                (event_at "missing-doctype" 1 1 0)) as (_ & Honce & _).
    rewrite (Honce eq_refl ltac:(discriminate) 0%nat
               (entry "Missing doctype before other content"
                      "Expected a `<!doctype html>` before anything else" (Some (JBool false)))
               eq_refl eq_refl).
    reflexivity.
Defined.

(** C3. In every message that reaches the sink, [fatal] is [true] exactly
    when the level is 2 and [false] exactly when it is 1, and it is never
    [null]: the key [0] of the table is only read for a level that is
    suppressed. *)
Theorem fatal_reflects_severity
    (errors : gmap jsstring RuleEntry) (options : gmap jsstring JsValue)
    (doc : jsstring) (path : option jsstring) (error : Error) (m : VFileMessage) :
  In m (sent (onerror errors options doc path error)) ->
  (m_fatal m = JBool true <-> severity options (code error) = num 2) /\
  (m_fatal m = JBool false <-> severity options (code error) = num 1) /\
  m_fatal m <> JNull.
Proof.
  intros Hm. apply onerror_inv in Hm as (Ht & info & _ & ->).
  cbn [m_fatal build_message].
  split; [apply fatalities_true|]. split; [apply fatalities_false|].
  intros Hnull. apply fatalities_null in Hnull. congruence.
Qed.

Lemma fatal_reflects_severity_witness :
  exists m,
    In m (sent (onerror sample_errors (with_sink [(str "missingDoctype", JNumber (num 2))])
                  (str "a") None (event_at "missing-doctype" 1 1 0))) /\
    (m_fatal m = JBool true <->
       severity (with_sink [(str "missingDoctype", JNumber (num 2))]) (str "missing-doctype")
         = num 2) /\
    m_fatal m <> JNull.
Proof.
  eexists. split; [left; reflexivity|].
  split;
    apply (fatal_reflects_severity sample_errors
             (with_sink [(str "missingDoctype", JNumber (num 2))]) (str "a") None
             (event_at "missing-doctype" 1 1 0));
    left; reflexivity.
Defined.

(** ** The fields [url], [reason] and [note] *)

Lemma url_suppressed_spec (info : RuleEntry) :
  url_suppressed info = true <-> url info = Some (JBool false).
Proof.
  unfold url_suppressed. destruct (url info) as [[| | [|] | | | | | |]|];
    split; congruence.
Qed.

Lemma message_url (doc : jsstring) (path : option jsstring) (info : RuleEntry)
    (error : Error) (level : JsNumber) :
  m_url (build_message doc path info error level)
    = if url_suppressed info then None else Some (base ++ code error).
Proof. reflexivity. Qed.

(** A message is built from the own entry when there is one, and from the
    fallback otherwise. *)
Lemma info_of_own (errors : gmap jsstring RuleEntry) (name : jsstring) (info : RuleEntry) :
  errors !! name = Some info -> info_of errors name = Some info.
Proof. unfold info_of, errors_get. now intros ->. Qed.

Lemma info_of_miss (errors : gmap jsstring RuleEntry) (name : jsstring) (info : RuleEntry) :
  errors !! name = None -> info_of errors name = Some info -> info = fallback.
Proof.
  unfold info_of, errors_get. intros ->.
  destruct (inherited name); congruence.
Qed.

Lemma info_of_miss_plain (errors : gmap jsstring RuleEntry) (name : jsstring) :
  errors !! name = None -> inherited name = false -> info_of errors name = Some fallback.
Proof. unfold info_of, errors_get. now intros -> ->. Qed.

Lemma info_of_miss_inherited (errors : gmap jsstring RuleEntry) (name : jsstring) :
  errors !! name = None -> inherited name = true -> info_of errors name = None.
Proof. unfold info_of, errors_get. now intros -> ->. Qed.

(** C7. In every message that reaches the sink, [url] is [null] exactly
    when the catalog has an entry for the rule whose field [url] is
    [false]; otherwise it is the base prefix followed by the original rule
    code, which differs from the prefix followed by the normalized
    identifier whenever normalization changed the code. *)
Theorem url_null_iff_suppressed
    (errors : gmap jsstring RuleEntry) (options : gmap jsstring JsValue)
    (doc : jsstring) (path : option jsstring) (error : Error) (m : VFileMessage) :
  In m (sent (onerror errors options doc path error)) ->
  (m_url m = None <->
     exists info, errors !! camelcase (code error) = Some info /\
                  url info = Some (JBool false)) /\
  (m_url m <> None -> m_url m = Some (base ++ code error)) /\
  (camelcase (code error) <> code error ->
     m_url m <> Some (base ++ camelcase (code error))).
Proof.
  intros Hm. apply onerror_inv in Hm as (_ & info & Hinfo & ->).
  rewrite message_url.
  destruct (url_suppressed info) eqn:Hs.
  - repeat split; try congruence.
    intros _. apply url_suppressed_spec in Hs.
    destruct (errors !! camelcase (code error)) as [own|] eqn:Hown.
    + rewrite (info_of_own _ _ _ Hown) in Hinfo. injection Hinfo as ->. eauto.
    + rewrite (info_of_miss _ _ _ Hown Hinfo) in Hs. discriminate.
  - repeat split; try congruence.
    + intros (own & Hown & Hu). rewrite (info_of_own _ _ _ Hown) in Hinfo.
      injection Hinfo as ->. apply url_suppressed_spec in Hu. congruence.
    + intros Hne Heq. apply Hne. symmetry. apply (app_inv_head base). congruence.
Qed.

Lemma url_null_iff_suppressed_witness :
  exists m,
    In m (sent (onerror sample_errors (with_sink []) (str "</x/>") None
                  (event_at "end-tag-with-trailing-solidus" 1 5 4))) /\
    m_url m = Some (base ++ str "end-tag-with-trailing-solidus") /\
    m_url m <> Some (base ++ str "endTagWithTrailingSolidus").
Proof.
  exists (build_message (str "</x/>") None
            (entry "Unexpected slash at end of closing tag"
                   "Unexpected `%c-1`. Expected `>` instead" None)
            (event_at "end-tag-with-trailing-solidus" 1 5 4) (num 1)).
  destruct (url_null_iff_suppressed sample_errors (with_sink []) (str "</x/>") None
              (event_at "end-tag-with-trailing-solidus" 1 5 4)
              (build_message (str "</x/>") None
                 (entry "Unexpected slash at end of closing tag"
                        "Unexpected `%c-1`. Expected `>` instead" None)
                 (event_at "end-tag-with-trailing-solidus" 1 5 4) (num 1)))
    as (_ & Hurl & Hnot); [left; reflexivity |].
  split; [left; reflexivity|].
  split; [apply Hurl | apply Hnot]; discriminate.
Defined.

(** C9, the failing input.  The code [constructor] has no entry in the
    catalog and resolves to level 1, yet [onerror] does not fall back to the
    empty templates: [errors["constructor"]] is the inherited function, its
    [reason] is [undefined], and [format] raises before the sink is
    called. *)
Lemma catalog_miss_inherited_name_throws :
  sample_errors !! camelcase (str "constructor") = None /\
  severity (with_sink []) (str "constructor") = num 1 /\
  onerror sample_errors (with_sink []) (str "<a>") None (event_at "constructor" 1 1 0)
    = Throws [].
Proof. split; [reflexivity | split; reflexivity]. Qed.

(** C10. For an event whose rule code has no catalog entry and whose
    level is 1 or 2, every message that reaches the sink has a [url] that
    is not [null]: the base prefix followed by the original code, since the
    [url] of the fallback entry is the empty string, not [false].  Such a
    message is sent, exactly one, whenever the sink is a function and the
    normalized name is not a property inherited from [Object.prototype]. *)
Theorem catalog_miss_has_url
    (errors : gmap jsstring RuleEntry) (options : gmap jsstring JsValue)
    (doc : jsstring) (path : option jsstring) (error : Error) :
  errors !! camelcase (code error) = None ->
  severity options (code error) = num 1 \/ severity options (code error) = num 2 ->
  (forall m, In m (sent (onerror errors options doc path error)) ->
     m_url m = Some (base ++ code error)) /\
  (inherited (camelcase (code error)) = false ->
   forall f, warn options = JFunction f ->
     exists m,
       onerror errors options doc path error = Returns [ {| callee := f; argument := m |} ] /\
       m_url m = Some (base ++ code error)).
Proof.
  intros Hmiss Hlevel. split.
  - intros m Hm. apply onerror_inv in Hm as (_ & info & Hinfo & ->).
    rewrite message_url, (info_of_miss _ _ _ Hmiss Hinfo). reflexivity.
  - intros Hplain f Hwarn. eexists. split.
    + apply onerror_truthy.
      * destruct Hlevel as [-> | ->]; reflexivity.
      * exact Hwarn.
      * now apply info_of_miss_plain.
    + reflexivity.
Qed.

Lemma catalog_miss_has_url_witness :
  exists m,
    onerror sample_errors (with_sink [(str "notInCatalog", JNumber (num 2))]) (str "<a>") None
      (event_at "not-in-catalog" 1 1 0) = Returns [ {| callee := 0%nat; argument := m |} ] /\
    m_url m = Some (base ++ str "not-in-catalog").
Proof.
  destruct (catalog_miss_has_url sample_errors
              (with_sink [(str "notInCatalog", JNumber (num 2))]) (str "<a>") None
              (event_at "not-in-catalog" 1 1 0)) as [_ Hsent];
    [reflexivity | right; reflexivity |].
  apply Hsent; reflexivity.
Defined.

(** ** The first pass of [format]: [%c] *)

Lemma digit_run_app_stop (s t : jsstring) (c : code_unit) :
  is_digit c = false -> digit_run (s ++ c :: t) = digit_run s.
Proof.
  intros Hc. induction s as [|d s IH]; simpl.
  - now rewrite Hc.
  - destruct (is_digit d); [now rewrite IH | reflexivity].
Qed.

Lemma digit_run_length (s : jsstring) : (length (digit_run s) <= length s)%nat.
Proof.
  induction s as [|d s IH]; simpl; [lia|].
  destruct (is_digit d); simpl; lia.
Qed.

Lemma digit_run_all_digits (ds post : jsstring) :
  forallb is_digit ds = true ->
  match post with c :: _ => is_digit c = false | [] => True end ->
  digit_run (ds ++ post) = ds.
Proof.
  intros Hds Hpost. induction ds as [|d ds IH]; simpl in *.
  - destruct post as [|c post]; [reflexivity|]. simpl. now rewrite Hpost.
  - apply andb_true_iff in Hds as [Hd Hds]. rewrite Hd. now rewrite IH.
Qed.

Lemma percent_not_digit : is_digit percent = false.
Proof. reflexivity. Qed.

(** A [%] ends every attempt to match at an earlier index: the pattern
    sees the same text whether the string stops or goes on with [%]. *)
Lemma match_percent_c_app_percent (a : code_unit) (s t : jsstring) :
  match_percent_c ((a :: s) ++ percent :: t) = match_percent_c (a :: s).
Proof.
  destruct s as [|b s]; simpl.
  - destruct (a =? percent); reflexivity.
  - destruct ((a =? percent) && (b =? letter_c)); [|reflexivity].
    destruct s as [|sg s]; simpl; [reflexivity|].
    destruct (is_sign sg); [|reflexivity].
    now rewrite (digit_run_app_stop s t percent percent_not_digit).
Qed.

Lemma match_percent_c_length (s : jsstring) (groups : option (code_unit * jsstring)) :
  match_percent_c s = Some groups -> (match_length groups <= length s)%nat.
Proof.
  destruct s as [|a [|b s]]; try discriminate. simpl.
  destruct ((a =? percent) && (b =? letter_c)); [|discriminate].
  intros [= <-]. destruct s as [|sg s]; simpl; [lia|].
  destruct (is_sign sg); simpl; [|lia].
  pose proof (digit_run_length s).
  destruct (digit_run s); simpl in *; lia.
Qed.

Section FormatFacts.

Context (doc : jsstring) (error : Error).

Lemma replace_percent_c_app_percent (s t : jsstring) :
  forall skip, (skip <= length s)%nat ->
    replace_percent_c doc error skip (s ++ percent :: t)
      = replace_percent_c doc error skip s
          ++ replace_percent_c doc error 0 (percent :: t).
Proof.
  induction s as [|a s IH]; intros skip Hskip.
  - simpl in Hskip. replace skip with 0%nat by lia. reflexivity.
  - destruct skip as [|k].
    + change (replace_percent_c doc error 0 ((a :: s) ++ percent :: t))
        with (match match_percent_c ((a :: s) ++ percent :: t) with
              | Some groups =>
                  replacement_c doc error groups
                    ++ replace_percent_c doc error (match_length groups - 1) (s ++ percent :: t)
              | None => a :: replace_percent_c doc error 0 (s ++ percent :: t)
              end).
      change (replace_percent_c doc error 0 (a :: s))
        with (match match_percent_c (a :: s) with
              | Some groups =>
                  replacement_c doc error groups
                    ++ replace_percent_c doc error (match_length groups - 1) s
              | None => a :: replace_percent_c doc error 0 s
              end).
      rewrite match_percent_c_app_percent.
      destruct (match_percent_c (a :: s)) as [groups|] eqn:Hmatch.
      * apply match_percent_c_length in Hmatch. simpl in Hmatch.
        rewrite IH by lia. now rewrite <- app_assoc.
      * rewrite IH by (simpl; lia). reflexivity.
    + simpl in Hskip. simpl. apply IH. lia.
Qed.

(** A code unit other than [%] is copied. *)
Lemma replace_percent_c_cons (c : code_unit) (rest : jsstring) :
  (c =? percent) = false ->
  replace_percent_c doc error 0 (c :: rest) = c :: replace_percent_c doc error 0 rest.
Proof.
  intros Hc. cbn [replace_percent_c].
  replace (match_percent_c (c :: rest)) with (@None (option (code_unit * jsstring)));
    [reflexivity|].
  destruct rest as [|d rest]; [reflexivity|]. simpl. now rewrite Hc.
Qed.

(** After a match the scan resumes behind the matched text. *)
Lemma replace_percent_c_skip (m r : jsstring) :
  replace_percent_c doc error (length m) (m ++ r) = replace_percent_c doc error 0 r.
Proof. induction m as [|a m IH]; [reflexivity | exact IH]. Qed.

Lemma match_percent_c_placeholder (groups : option (code_unit * jsstring)) (post : jsstring) :
  well_formed groups = true -> ends_placeholder groups post = true ->
  match_percent_c (placeholder_text groups ++ post) = Some groups.
Proof.
  intros Hwf Hend. destruct groups as [[sg ds]|]; simpl in *.
  - apply andb_true_iff in Hwf as [Hwf Hne]. apply andb_true_iff in Hwf as [Hsg Hds].
    rewrite Hsg. rewrite digit_run_all_digits; [| exact Hds |].
    + destruct ds; [discriminate | reflexivity].
    + destruct post as [|c post]; [exact I|]. now apply negb_true_iff.
  - destruct post as [|sg [|d post]]; simpl; try reflexivity.
    + destruct (is_sign sg); reflexivity.
    + destruct (is_sign sg); [|reflexivity]. simpl in Hend.
      apply negb_true_iff in Hend. now rewrite Hend.
Qed.

Lemma replace_percent_c_placeholder (groups : option (code_unit * jsstring)) (post : jsstring) :
  well_formed groups = true -> ends_placeholder groups post = true ->
  replace_percent_c doc error 0 (placeholder_text groups ++ post)
    = replacement_c doc error groups ++ replace_percent_c doc error 0 post.
Proof.
  intros Hwf Hend.
  pose proof (match_percent_c_placeholder groups post Hwf Hend) as Hmatch.
  unfold placeholder_text in *.
  cbn [app replace_percent_c]. cbn [app] in Hmatch. rewrite Hmatch. f_equal.
  destruct groups as [[sg ds]|].
  - exact (replace_percent_c_skip (letter_c :: sg :: ds) post).
  - exact (replace_percent_c_skip [letter_c] post).
Qed.

(** The first pass replaces a placeholder by its replacement, whatever
    stands before and after it. *)
Lemma replace_percent_c_compositional
    (pre post : jsstring) (groups : option (code_unit * jsstring)) :
  well_formed groups = true -> ends_placeholder groups post = true ->
  replace_percent_c doc error 0 (pre ++ placeholder_text groups ++ post)
    = replace_percent_c doc error 0 pre
        ++ replacement_c doc error groups
        ++ replace_percent_c doc error 0 post.
Proof.
  intros Hwf Hend.
  change (placeholder_text groups ++ post)
    with (percent :: (tl (placeholder_text groups) ++ post)).
  rewrite replace_percent_c_app_percent by lia.
  f_equal. now apply replace_percent_c_placeholder.
Qed.

End FormatFacts.

(** ** Hexadecimal digits *)

Lemma hex_value_snoc (s : jsstring) (c : code_unit) :
  hex_value (s ++ [c]) = 16 * hex_value s + hex_digit_value c.
Proof. unfold hex_value. now rewrite fold_left_app. Qed.

Lemma upper_hex_digit (d : N) :
  d < 16 ->
  hex_digit_value (upper_unit (hex_digit d)) = d /\
  is_upper_hex_digit (upper_unit (hex_digit d)) = true.
Proof.
  intros Hd. unfold hex_digit_value, hex_digit, is_upper_hex_digit.
  destruct (N.ltb_spec d 10); class_cases;
    repeat match goal with
      | |- context [N.ltb ?a ?b] => destruct (N.ltb_spec a b)
      end; simpl; split; try reflexivity; lia.
Qed.

(** With enough fuel [radix16] writes the number: read back, the
    upper-cased digits give it again, and all of them are in [0-9A-F]. *)
Lemma radix16_value (fuel : nat) :
  forall n, n < 16 ^ N.of_nat fuel ->
    hex_value (toUpperCase (radix16 fuel n)) = n /\
    forallb is_upper_hex_digit (toUpperCase (radix16 fuel n)) = true.
Proof.
  induction fuel as [|f IH]; intros n Hn.
  - change (N.of_nat 0) with 0 in Hn. rewrite N.pow_0_r in Hn.
    replace n with 0 by lia. split; reflexivity.
  - cbn [radix16]. unfold toUpperCase in *. rewrite map_app, forallb_app. cbn [map].
    rewrite hex_value_snoc.
    destruct (upper_hex_digit (n mod 16)) as [Hv Hd];
      [apply N.mod_lt; lia|].
    rewrite Hv. cbn [forallb]. rewrite Hd.
    destruct (N.ltb_spec n 16) as [Hsmall | Hbig].
    + cbn. rewrite N.mod_small by lia. split; [lia | reflexivity].
    + destruct (IH (n / 16)) as [IHv IHd].
      * apply N.Div0.div_lt_upper_bound.
        rewrite Nat2N.inj_succ, N.pow_succ_r' in Hn. exact Hn.
      * rewrite IHv, IHd. split; [|reflexivity].
        pose proof (N.div_mod n 16). lia.
Qed.

Lemma toString16_fuel (u : N) : u < 16 ^ N.of_nat (S (N.to_nat (N.log2 u))).
Proof.
  rewrite Nat2N.inj_succ, N2Nat.id.
  destruct (N.eq_dec u 0) as [-> | Hpos]; [reflexivity|].
  destruct (N.log2_spec u) as [_ Hlt]; [lia|].
  eapply N.lt_le_trans; [exact Hlt|].
  apply N.pow_le_mono_l. lia.
Qed.

Lemma toString16_value (u : code_unit) :
  hex_value (toUpperCase (toString16 (Some u))) = u /\
  forallb is_upper_hex_digit (toUpperCase (toString16 (Some u))) = true.
Proof. apply radix16_value, toString16_fuel. Qed.

(** ** The second pass of [format]: [%x] *)

Section FormatPasses.

Context (doc : jsstring) (error : Error).

Lemma replace_percent_x_cons (c : code_unit) (rest : jsstring) :
  (c =? percent) = false ->
  replace_percent_x doc error (c :: rest) = c :: replace_percent_x doc error rest.
Proof.
  intros Hc. destruct rest as [|d rest]; [reflexivity|].
  cbn [replace_percent_x]. now rewrite Hc.
Qed.

Lemma replace_percent_x_placeholder (rest : jsstring) :
  replace_percent_x doc error (percent :: letter_x :: rest)
    = replacement_x doc error ++ replace_percent_x doc error rest.
Proof. reflexivity. Qed.

(** Text that does not begin with [x] cannot complete a [%x] begun in the
    text before it. *)
Lemma replace_percent_x_app (a : jsstring) (c : code_unit) (t : jsstring) :
  (c =? letter_x) = false ->
  replace_percent_x doc error (a ++ c :: t)
    = replace_percent_x doc error a ++ replace_percent_x doc error (c :: t).
Proof.
  intros Hc.
  enough (H : (replace_percent_x doc error (a ++ c :: t)
                 = replace_percent_x doc error a ++ replace_percent_x doc error (c :: t)) /\
              (forall b, replace_percent_x doc error ((b :: a) ++ c :: t)
                 = replace_percent_x doc error (b :: a)
                     ++ replace_percent_x doc error (c :: t)))
    by apply H.
  induction a as [|d a [IHa IHcons]]; split.
  - reflexivity.
  - intros b. change (([b] ++ c :: t)) with (b :: c :: t).
    change (replace_percent_x doc error (b :: c :: t))
      with (if (b =? percent) && (c =? letter_x)
            then replacement_x doc error ++ replace_percent_x doc error t
            else b :: replace_percent_x doc error (c :: t)).
    rewrite Hc, andb_false_r. reflexivity.
  - apply IHcons.
  - intros b.
    change (replace_percent_x doc error ((b :: d :: a) ++ c :: t))
      with (if (b =? percent) && (d =? letter_x)
            then replacement_x doc error ++ replace_percent_x doc error (a ++ c :: t)
            else b :: replace_percent_x doc error ((d :: a) ++ c :: t)).
    change (replace_percent_x doc error (b :: d :: a))
      with (if (b =? percent) && (d =? letter_x)
            then replacement_x doc error ++ replace_percent_x doc error a
            else b :: replace_percent_x doc error (d :: a)).
    destruct ((b =? percent) && (d =? letter_x)).
    + rewrite IHa. now rewrite app_assoc.
    + now rewrite IHcons.
Qed.

Lemma replace_percent_x_no_percent (s t : jsstring) :
  forallb (fun c => negb (c =? percent)) s = true ->
  replace_percent_x doc error (s ++ t) = s ++ replace_percent_x doc error t.
Proof.
  induction s as [|c s IH]; intros Hs; [reflexivity|].
  simpl in Hs. apply andb_true_iff in Hs as [Hc Hs]. apply negb_true_iff in Hc.
  change ((c :: s) ++ t) with (c :: (s ++ t)).
  rewrite replace_percent_x_cons by exact Hc. now rewrite IH.
Qed.

(** Text without placeholders goes through both passes unchanged. *)
Lemma replace_percent_c_plain (s : jsstring) :
  no_placeholder s = true -> replace_percent_c doc error 0 s = s.
Proof.
  induction s as [|c s IH]; intros Hs; [reflexivity|].
  cbn [no_placeholder] in Hs. apply andb_true_iff in Hs as [Hc Hs].
  assert (Hmatch : match_percent_c (c :: s) = None).
  { destruct s as [|d s]; [reflexivity|]. simpl.
    apply negb_true_iff in Hc.
    destruct (c =? percent); [|reflexivity].
    simpl in Hc. apply orb_false_iff in Hc as [-> _]. reflexivity. }
  cbn [replace_percent_c]. rewrite Hmatch. now rewrite IH.
Qed.

Lemma replace_percent_x_plain (s : jsstring) :
  no_placeholder s = true -> replace_percent_x doc error s = s.
Proof.
  induction s as [|c s IH]; intros Hs; [reflexivity|].
  cbn [no_placeholder] in Hs. apply andb_true_iff in Hs as [Hc Hs].
  destruct (c =? percent) eqn:Hp.
  - destruct s as [|d s]; [reflexivity|].
    apply negb_true_iff in Hc. cbn [andb] in Hc.
    apply orb_false_iff in Hc as [_ Hx].
    change (replace_percent_x doc error (c :: d :: s))
      with (if (c =? percent) && (d =? letter_x)
            then replacement_x doc error ++ replace_percent_x doc error s
            else c :: replace_percent_x doc error (d :: s)).
    rewrite Hp, Hx. cbn [andb]. now rewrite IH.
  - rewrite replace_percent_x_cons by exact Hp. now rewrite IH.
Qed.

Lemma format_plain (s : jsstring) :
  no_placeholder s = true -> format doc error s = s.
Proof.
  intros Hs. unfold format. rewrite replace_percent_c_plain by exact Hs.
  now apply replace_percent_x_plain.
Qed.

End FormatPasses.

(** ** [format] as a whole *)

(** The selected character is [%] and the template goes on with [x]: the
    first pass leaves [%x], which the second pass expands.  The placeholder
    followed by the text [x] does not render as the character followed by
    [x]. *)
Lemma percent_c_result_joins_next_text :
  well_formed None = true /\
  ends_placeholder None (str "x") = true /\
  format (str "%") (event_at "missing-doctype" 1 1 0) (placeholder_text None ++ str "x")
    = str "0x25" /\
  format (str "%") (event_at "missing-doctype" 1 1 0) []
    ++ escape (charAt (str "%") (0 + offset_of None))
    ++ format (str "%") (event_at "missing-doctype" 1 1 0) (str "x")
    = str "%x" /\
  format (str "%") (event_at "missing-doctype" 1 1 0) (placeholder_text None ++ str "x")
    <> format (str "%") (event_at "missing-doctype" 1 1 0) []
         ++ escape (charAt (str "%") (0 + offset_of None))
         ++ format (str "%") (event_at "missing-doctype" 1 1 0) (str "x").
Proof.
  split; [reflexivity|]. split; [reflexivity|]. split; [reflexivity|].
  split; [reflexivity|]. discriminate.
Qed.

(** C5, amended. A [%c] placeholder with its optional sign and digit run
    is replaced in the first pass by the character of the source text at
    [startOffset + signedOffset] (nothing when there is none; [` ` `] for a
    backtick), whatever text surrounds it.  In the result of [format] the
    same holds whenever that character exists and is neither [%] nor [x];
    text in which no [%] is followed by [c] or [x] passes through
    unchanged. *)
Theorem percent_c_expands
    (doc : jsstring) (error : Error) (pre post : jsstring)
    (groups : option (code_unit * jsstring)) :
  well_formed groups = true -> ends_placeholder groups post = true ->
  replace_percent_c doc error 0 (pre ++ placeholder_text groups ++ post)
    = replace_percent_c doc error 0 pre
        ++ escape (charAt doc (startOffset error + offset_of groups))
        ++ replace_percent_c doc error 0 post /\
  (forall ch, charAt doc (startOffset error + offset_of groups) = [ch] ->
     (ch =? percent) = false -> (ch =? letter_x) = false ->
     format doc error (pre ++ placeholder_text groups ++ post)
       = format doc error pre
           ++ (if ch =? backtick then str "` ` `" else [ch])
           ++ format doc error post) /\
  (forall s, no_placeholder s = true -> format doc error s = s).
Proof.
  intros Hwf Hend. split; [|split].
  - now apply replace_percent_c_compositional.
  - intros ch Hch Hp Hx. unfold format.
    rewrite replace_percent_c_compositional by assumption.
    unfold replacement_c. rewrite Hch. cbn [escape].
    destruct (ch =? backtick) eqn:Hb.
    + change (str "` ` `") with (backtick :: str " ` `").
      cbn [app]. rewrite replace_percent_x_app by reflexivity. f_equal.
      exact (replace_percent_x_no_percent doc error (str "` ` `") _ eq_refl).
    + cbn [app]. rewrite replace_percent_x_app by exact Hx. f_equal.
      now apply replace_percent_x_cons.
  - intros s. apply format_plain.
Qed.

Lemma percent_c_expands_witness :
  format (str "</x/>") (event_at "end-tag-with-trailing-solidus" 1 5 4)
    (str "Unexpected `" ++ placeholder_text (Some (hyphen, str "1")) ++ str "`. Expected `>` instead")
  = format (str "</x/>") (event_at "end-tag-with-trailing-solidus" 1 5 4) (str "Unexpected `")
      ++ str "/"
      ++ format (str "</x/>") (event_at "end-tag-with-trailing-solidus" 1 5 4)
           (str "`. Expected `>` instead").
Proof.
  destruct (percent_c_expands (str "</x/>") (event_at "end-tag-with-trailing-solidus" 1 5 4)
              (str "Unexpected `") (str "`. Expected `>` instead")
              (Some (hyphen, str "1")) eq_refl eq_refl) as (_ & Hformat & _).
  apply (Hformat 47); reflexivity.
Defined.

(** C6. A [%x] placeholder is replaced, whatever text surrounds it, by
    [0x] followed by the code unit [u] of the source text at [startOffset],
    written in hexadecimal with upper-case digits: the digits are in
    [0-9A-F] and their value is [u].  No sign or digits after [%x] belong
    to the placeholder: [post] is any text. *)
Theorem percent_x_expands
    (doc : jsstring) (error : Error) (u : code_unit) (pre post : jsstring) :
  charCodeAt doc (startOffset error) = Some u ->
  format doc error (pre ++ str "%x" ++ post)
    = format doc error pre
        ++ str "0x" ++ toUpperCase (toString16 (Some u))
        ++ format doc error post /\
  hex_value (toUpperCase (toString16 (Some u))) = u /\
  forallb is_upper_hex_digit (toUpperCase (toString16 (Some u))) = true.
Proof.
  intros Hu. split; [|apply toString16_value].
  unfold format.
  change (str "%x" ++ post) with (percent :: letter_x :: post).
  rewrite replace_percent_c_app_percent by lia.
  change (replace_percent_c doc error 0 (percent :: letter_x :: post))
    with (percent :: replace_percent_c doc error 0 (letter_x :: post)).
  rewrite replace_percent_c_cons by reflexivity.
  rewrite replace_percent_x_app by reflexivity.
  rewrite replace_percent_x_placeholder.
  unfold replacement_x. rewrite Hu. now rewrite <- !app_assoc.
Qed.

Lemma percent_x_expands_witness :
  format (str "<!doctype html>" ++ [10; 0xD800]) (event_at "surrogate-in-input-stream" 2 1 16)
    (str "Unexpected code point `" ++ str "%x" ++ str "`. Do not use lone surrogate characters in HTML")
  = format (str "<!doctype html>" ++ [10; 0xD800]) (event_at "surrogate-in-input-stream" 2 1 16)
      (str "Unexpected code point `")
      ++ str "0x" ++ toUpperCase (toString16 (Some 0xD800))
      ++ format (str "<!doctype html>" ++ [10; 0xD800]) (event_at "surrogate-in-input-stream" 2 1 16)
           (str "`. Do not use lone surrogate characters in HTML").
Proof.
  apply (percent_x_expands (str "<!doctype html>" ++ [10; 0xD800])
           (event_at "surrogate-in-input-stream" 2 1 16) 0xD800); reflexivity.
Defined.

(** Offsets 0, -1 and +1 select the character at the start offset, the one
    before and the one after it. *)
Example percent_c_neighbours :
  format (str "abc") (event_at "missing-doctype" 1 2 1) (str "%c|%c-1|%c+1|%c+01|%c-2|%c+2")
    = str "b|a|c|c||".
Proof. reflexivity. Qed.

(** A sign without digits is not part of the placeholder. *)
Example percent_c_sign_without_digits :
  format (str "abc") (event_at "missing-doctype" 1 2 1) (str "%c+|%c-x") = str "b+|b-x".
Proof. reflexivity. Qed.

(** The two examples of the specification. *)
Example percent_x_nul :
  format [0] (event_at "unexpected-null-character" 1 1 0) (str "%x") = str "0x0".
Proof. reflexivity. Qed.

Example percent_x_lone_surrogate :
  format [0xD800] (event_at "surrogate-in-input-stream" 1 1 0) (str "%x") = str "0xD800".
Proof. reflexivity. Qed.

(** Nothing after [%x] is read as an offset. *)
Example percent_x_takes_no_offset :
  format (str "ab") (event_at "missing-doctype" 1 1 0) (str "%x+1") = str "0x61+1".
Proof. reflexivity. Qed.

(** At an offset outside the text [charCodeAt] gives [NaN], which prints
    as [NaN] and is upper-cased with the rest. *)
Example percent_x_outside_text :
  format (str "a") (event_at "eof-in-tag" 1 2 1) (str "%x") = str "0xNAN".
Proof. reflexivity. Qed.

(** ** The expectations of [test/index.js] *)

Example test_onerror :
  reported sample_errors (with_sink []) (str "a") None [event_at "missing-doctype" 1 1 0]
    = Returns [ {| callee := 0%nat; argument := expected_missing_doctype "1:1-1:1" None |} ].
Proof. reflexivity. Qed.

Example test_level_number :
  reported sample_errors (with_sink [(str "missingDoctype", JNumber (num 0))]) (str "a") None
    [event_at "missing-doctype" 1 1 0] = Returns [].
Proof. reflexivity. Qed.

Example test_level_boolean :
  reported sample_errors (with_sink [(str "missingDoctype", JBool false)]) (str "a") None
    [event_at "missing-doctype" 1 1 0] = Returns [].
Proof. reflexivity. Qed.

Example test_no_sink :
  reported sample_errors ∅ (str "a") None [event_at "missing-doctype" 1 1 0] = Returns [].
Proof. reflexivity. Qed.

Example test_url :
  map (fun m => (m_name m, m_message m, m_url m))
    (sent (reported sample_errors (with_sink [(str "missingDoctype", JBool false)]) (str "&x;")
             None
             [event_at "missing-doctype" 1 1 0;
              event_at "unknown-named-character-reference" 1 3 2]))
    = [(str "1:3-1:3", str "Unexpected unknown named character reference",
        Some (str "https://html.spec.whatwg.org/multipage/parsing.html#parse-error-unknown-named-character-reference"))].
Proof. reflexivity. Qed.

Example test_vfile :
  reported sample_errors (with_sink []) (str "</x/>") (Some (str "example.html"))
    [event_at "missing-doctype" 1 1 0]
    = Returns [ {| callee := 0%nat;
                   argument := expected_missing_doctype "example.html:1:1-1:1"
                                 (Some (str "example.html")) |} ].
Proof. reflexivity. Qed.

Example test_character :
  map (fun m => (m_ruleId m, m_note m, m_url m))
    (sent (reported sample_errors (with_sink [(str "missingDoctype", JBool false)])
             (str "</x/>") None
             [event_at "missing-doctype" 1 1 0; event_at "end-tag-with-trailing-solidus" 1 5 4]))
    = [(str "end-tag-with-trailing-solidus",
        str "Unexpected `/`. Expected `>` instead",
        Some (str "https://html.spec.whatwg.org/multipage/parsing.html#parse-error-end-tag-with-trailing-solidus"))].
Proof. reflexivity. Qed.

Example test_backtick :
  map (fun m => (m_name m, m_note m))
    (sent (reported sample_errors (with_sink [(str "missingDoctype", JBool false)])
             (str "<`>") None
             [event_at "missing-doctype" 1 1 0;
              event_at "invalid-first-character-of-tag-name" 1 2 1]))
    = [(str "1:2-1:2", str "Unexpected `` ` ``. Expected an ASCII letter instead")].
Proof. reflexivity. Qed.

Example test_character_code :
  map (fun m => (m_fatal m, m_note m))
    (sent (reported sample_errors (with_sink [(str "missingDoctype", JBool false)]) [0] None
             [event_at "missing-doctype" 1 1 0; event_at "unexpected-null-character" 1 1 0]))
    = [(JBool false, str "Unexpected code point `0x0`. Do not use NULL characters in HTML")].
Proof. reflexivity. Qed.

Example test_surrogate :
  map (fun m => (m_name m, m_note m))
    (sent (reported sample_errors (with_sink []) (str "<!doctype html>" ++ [10; 0xD800])
             (Some (str "index.html")) [event_at "surrogate-in-input-stream" 2 1 16]))
    = [(str "index.html:2:1-2:1",
        str "Unexpected code point `0xD800`. Do not use lone surrogate characters in HTML")].
Proof. reflexivity. Qed.

(** An exception raised for one event ends the run: the events after it
    are not reported. *)
Example inherited_name_ends_the_run :
  reported sample_errors (with_sink []) (str "a") None
    [event_at "missing-doctype" 1 1 0; event_at "constructor" 1 1 0;
     event_at "missing-doctype" 1 1 0]
    = Throws [ {| callee := 0%nat; argument := expected_missing_doctype "1:1-1:1" None |} ].
Proof. reflexivity. Qed.

(** * Further properties of [camelcase] and [kebab] *)

Lemma camelcase_cons_no_match (c : code_unit) (rest : jsstring) :
  match rest with
  | d :: _ => (c =? hyphen) && is_lower d = false
  | [] => True
  end ->
  camelcase (c :: rest) = c :: camelcase rest.
Proof.
  destruct rest as [|d rest]; [reflexivity|]. intros H.
  change (camelcase (c :: d :: rest))
    with (if (c =? hyphen) && is_lower d
          then upper_unit d :: camelcase rest
          else c :: camelcase (d :: rest)).
  now rewrite H.
Qed.

Lemma camelcase_cons_match (c d : code_unit) (rest : jsstring) :
  (c =? hyphen) && is_lower d = true ->
  camelcase (c :: d :: rest) = upper_unit d :: camelcase rest.
Proof.
  intros H.
  change (camelcase (c :: d :: rest))
    with (if (c =? hyphen) && is_lower d
          then upper_unit d :: camelcase rest
          else c :: camelcase (d :: rest)).
  now rewrite H.
Qed.

Lemma camelcase_cons_not_hyphen (c : code_unit) (rest : jsstring) :
  (c =? hyphen) = false -> camelcase (c :: rest) = c :: camelcase rest.
Proof.
  intros Hc. apply camelcase_cons_no_match.
  destruct rest as [|d rest]; [exact I | now rewrite Hc].
Qed.

Lemma upper_unit_not_lower (d : code_unit) : is_lower (upper_unit d) = false.
Proof. class_cases. Qed.

Lemma upper_unit_not_hyphen (d : code_unit) :
  is_lower d = true -> (upper_unit d =? hyphen) = false.
Proof. class_cases. Qed.

Lemma lower_unit_is_lower (c : code_unit) : is_upper c = true -> is_lower (lower_unit c) = true.
Proof. class_cases. Qed.

Lemma upper_lower_unit (c : code_unit) : is_upper c = true -> upper_unit (lower_unit c) = c.
Proof. class_cases. Qed.

Lemma upper_not_hyphen (c : code_unit) : is_upper c = true -> (c =? hyphen) = false.
Proof. class_cases. Qed.

Lemma hyphen_not_lower (c : code_unit) : (c =? hyphen) = true -> is_lower c = false.
Proof. class_cases. Qed.

(** X1. [kebab] undoes [camelcase] on every string without upper-case
    ASCII letters, hyphen-case or not. *)
Theorem kebab_inverts_camelcase (s : jsstring) :
  no_upper s -> kebab (camelcase s) = s.
Proof. intros H. now apply kebab_camelcase. Qed.

Lemma kebab_inverts_camelcase_witness :
  kebab (camelcase (str "a--b-1-c-")) = str "a--b-1-c-".
Proof.
  apply (kebab_inverts_camelcase (str "a--b-1-c-")).
  repeat constructor.
Defined.

(** Every match shortens the string by one code unit. *)
Lemma camelcase_length_two_step (s : jsstring) :
  (length (camelcase s) + hyphen_matches s = length s)%nat /\
  (forall c, (length (camelcase (c :: s)) + hyphen_matches (c :: s)
              = length (c :: s))%nat).
Proof.
  induction s as [|d s' [IHs IHcons]]; split.
  - reflexivity.
  - intros c. reflexivity.
  - apply IHcons.
  - intros c. destruct ((c =? hyphen) && is_lower d) eqn:Hm.
    + rewrite camelcase_cons_match by exact Hm.
      cbn [hyphen_matches]. rewrite Hm.
      apply andb_true_iff in Hm as [_ Hl].
      assert (Hd : match s' with
                   | e :: _ => if (d =? hyphen) && is_lower e then 1%nat else 0%nat
                   | [] => 0%nat
                   end = 0%nat).
      { destruct s' as [|e s'']; [reflexivity|].
        now rewrite (lower_not_hyphen _ Hl). }
      rewrite Hd. cbn [length]. lia.
    + rewrite camelcase_cons_no_match by exact Hm.
      specialize (IHcons d).
      change (hyphen_matches (c :: d :: s'))
        with ((if (c =? hyphen)%N && is_lower d then 1 else 0)
              + hyphen_matches (d :: s'))%nat.
      rewrite Hm. cbn [length] in *. lia.
Qed.

Lemma camelcase_no_match_id (s : jsstring) :
  hyphen_matches s = 0%nat -> camelcase s = s.
Proof.
  induction s as [|c s IH]; intros H; [reflexivity|].
  cbn [hyphen_matches] in H.
  rewrite camelcase_cons_no_match.
  - rewrite IH by lia. reflexivity.
  - destruct s as [|d s']; [exact I|].
    destruct ((c =? hyphen) && is_lower d); [simpl in H; lia | reflexivity].
Qed.

(** X2. [camelcase] removes exactly one code unit per match of
    [/-[a-z]/], and it returns its argument unchanged exactly when there is
    no match (the empty string, a code without hyphens, a hyphen before a
    digit or at the end). *)
Theorem camelcase_length (s : jsstring) :
  (length (camelcase s) + hyphen_matches s = length s)%nat /\
  (camelcase s = s <-> hyphen_matches s = 0%nat).
Proof.
  pose proof (proj1 (camelcase_length_two_step s)) as Hlen.
  split; [exact Hlen|]. split.
  - intros Heq. rewrite Heq in Hlen. lia.
  - apply camelcase_no_match_id.
Qed.

(** The first code unit of the result is not a lower-case letter when the
    first code unit of the argument is not. *)
Lemma camelcase_head_not_lower (d : code_unit) (s : jsstring) :
  is_lower d = false ->
  match camelcase (d :: s) with
  | e :: _ => is_lower e = false
  | [] => False
  end.
Proof.
  intros Hd. destruct s as [|e s]; [exact Hd|].
  destruct ((d =? hyphen) && is_lower e) eqn:Hm.
  - rewrite camelcase_cons_match by exact Hm. apply upper_unit_not_lower.
  - rewrite camelcase_cons_no_match by exact Hm. exact Hd.
Qed.

Lemma camelcase_leaves_no_match_two_step (s : jsstring) :
  hyphen_matches (camelcase s) = 0%nat /\
  (forall c, hyphen_matches (camelcase (c :: s)) = 0%nat).
Proof.
  induction s as [|d s' [IHs IHcons]]; split.
  - reflexivity.
  - intros c. reflexivity.
  - apply IHcons.
  - intros c. destruct ((c =? hyphen) && is_lower d) eqn:Hm.
    + rewrite camelcase_cons_match by exact Hm.
      apply andb_true_iff in Hm as [_ Hl].
      cbn [hyphen_matches]. rewrite IHs.
      destruct (camelcase s') as [|e r]; [reflexivity|].
      now rewrite (upper_unit_not_hyphen _ Hl).
    + rewrite camelcase_cons_no_match by exact Hm.
      cbn [hyphen_matches]. rewrite (IHcons d).
      destruct (c =? hyphen) eqn:Hc.
      * cbn [andb] in Hm.
        pose proof (camelcase_head_not_lower d s' Hm) as Hhead.
        destruct (camelcase (d :: s')) as [|e r]; [reflexivity|].
        now rewrite Hhead.
      * destruct (camelcase (d :: s')) as [|e r]; reflexivity.
Qed.

(** X3. [camelcase] is idempotent: its result holds no hyphen followed by
    a lower-case letter, so normalizing a key again leaves it as it is. *)
Theorem camelcase_idempotent (s : jsstring) :
  hyphen_matches (camelcase s) = 0%nat /\ camelcase (camelcase s) = camelcase s.
Proof.
  pose proof (proj1 (camelcase_leaves_no_match_two_step s)) as H.
  split; [exact H | now apply camelcase_no_match_id].
Qed.

Lemma lower_is_letter (c : code_unit) : is_lower c = true -> is_letter c = true.
Proof. unfold is_letter. now intros ->. Qed.

Lemma upper_unit_is_letter (d : code_unit) :
  is_lower d = true -> is_letter (upper_unit d) = true.
Proof.
  intros H. unfold is_letter. rewrite (upper_of_lower_is_upper _ H).
  apply orb_true_r.
Qed.

(** The normal form of a hyphen-case code holds letters only. *)
Lemma camelcase_letters_two_step (s : jsstring) :
  (forall in_word, hyphen_case_from in_word s = true ->
     forallb is_letter (camelcase s) = true) /\
  (forall c in_word, hyphen_case_from in_word (c :: s) = true ->
     forallb is_letter (camelcase (c :: s)) = true).
Proof.
  induction s as [|d s' [IHs IHcons]]; split.
  - reflexivity.
  - intros c in_word H. cbn in H. cbn.
    destruct (is_lower c) eqn:Hl.
    + now rewrite (lower_is_letter _ Hl).
    + destruct ((c =? hyphen) && in_word); discriminate.
  - apply IHcons.
  - intros c in_word H. cbn [hyphen_case_from] in H.
    destruct (is_lower c) eqn:Hl.
    + rewrite camelcase_cons_not_hyphen by exact (lower_not_hyphen _ Hl).
      cbn [forallb]. rewrite (lower_is_letter _ Hl). exact (IHcons d true H).
    + destruct ((c =? hyphen) && in_word) eqn:Hh; [|discriminate].
      apply andb_true_iff in Hh as [Hh _].
      destruct (is_lower d) eqn:Hd.
      * rewrite camelcase_cons_match by now rewrite Hh, Hd.
        cbn [forallb]. rewrite (upper_unit_is_letter _ Hd). exact (IHs true H).
      * rewrite andb_false_r in H. discriminate.
Qed.

(** X4. The normal form of a hyphen-case code is a catalog key: ASCII
    letters only, beginning with a lower-case one; no hyphen is left. *)
Theorem camelcase_gives_camel_key (code : jsstring) :
  hyphen_case code = true -> camel_key (camelcase code) = true.
Proof.
  intros H.
  pose proof (proj1 (camelcase_letters_two_step code) false H) as Hletters.
  destruct code as [|c rest]; [discriminate|].
  unfold hyphen_case in H. cbn [hyphen_case_from] in H.
  destruct (is_lower c) eqn:Hl.
  - rewrite camelcase_cons_not_hyphen in Hletters by exact (lower_not_hyphen _ Hl).
    rewrite camelcase_cons_not_hyphen by exact (lower_not_hyphen _ Hl).
    cbn [camel_key]. rewrite Hl. cbn [forallb] in Hletters.
    now apply andb_true_iff in Hletters as [_ ->].
  - rewrite andb_false_r in H. discriminate.
Qed.

Lemma camelcase_gives_camel_key_witness :
  camel_key (camelcase (str "non-void-html-element-start-tag-with-trailing-solidus")) = true.
Proof.
  apply (camelcase_gives_camel_key
           (str "non-void-html-element-start-tag-with-trailing-solidus")).
  reflexivity.
Defined.

(** [camelcase] undoes [kebab] on a key of letters. *)
Lemma camelcase_kebab_letters (key : jsstring) :
  forallb is_letter key = true -> camelcase (kebab key) = key.
Proof.
  induction key as [|c key IH]; intros H; [reflexivity|].
  cbn [forallb] in H. apply andb_true_iff in H as [Hc H].
  cbn [kebab]. destruct (is_upper c) eqn:Hu.
  - rewrite camelcase_cons_match by now rewrite (lower_unit_is_lower _ Hu).
    rewrite (upper_lower_unit _ Hu). now rewrite IH.
  - unfold is_letter in Hc. rewrite Hu, orb_false_r in Hc.
    rewrite camelcase_cons_not_hyphen by exact (lower_not_hyphen _ Hc).
    now rewrite IH.
Qed.

Lemma kebab_letters_hyphen_case (key : jsstring) :
  forallb is_letter key = true -> hyphen_case_from true (kebab key) = true.
Proof.
  induction key as [|c key IH]; intros H; [reflexivity|].
  cbn [forallb] in H. apply andb_true_iff in H as [Hc H].
  cbn [kebab]. destruct (is_upper c) eqn:Hu.
  - cbn [hyphen_case_from]. rewrite (lower_unit_is_lower _ Hu).
    replace (is_lower hyphen) with false by reflexivity.
    replace (hyphen =? hyphen) with true by reflexivity.
    cbn [andb]. now apply IH.
  - unfold is_letter in Hc. rewrite Hu, orb_false_r in Hc.
    cbn [hyphen_case_from]. rewrite Hc. now apply IH.
Qed.

(** X5. Every catalog key (letters, the first in lower case) is the
    normal form of a hyphen-case code, the one [kebab] computes: [kebab key]
    is hyphen-case and [camelcase] brings it back to [key]. *)
Theorem camelcase_inverts_kebab (key : jsstring) :
  camel_key key = true ->
  hyphen_case (kebab key) = true /\ camelcase (kebab key) = key.
Proof.
  intros H. destruct key as [|c rest]; [discriminate|].
  cbn [camel_key] in H. apply andb_true_iff in H as [Hc Hrest].
  split.
  - cbn [kebab]. rewrite (lower_not_upper _ Hc).
    unfold hyphen_case. cbn [hyphen_case_from]. rewrite Hc.
    now apply kebab_letters_hyphen_case.
  - apply camelcase_kebab_letters. cbn [forallb].
    now rewrite (lower_is_letter _ Hc).
Qed.

Lemma camelcase_inverts_kebab_witness :
  hyphen_case (kebab (str "eofInCdata")) = true /\
  camelcase (kebab (str "eofInCdata")) = str "eofInCdata".
Proof. apply (camelcase_inverts_kebab (str "eofInCdata")). reflexivity. Defined.

(** * Further properties of [onerror] *)

Lemma severity_same_setting
    (options1 options2 : gmap jsstring JsValue) (code : jsstring) :
  options1 !! camelcase code = options2 !! camelcase code ->
  severity options1 code = severity options2 code.
Proof. intros H. rewrite !severity_unfold. now rewrite H. Qed.

Lemma camelcase_hyphen_case_neq (code1 code2 : jsstring) :
  hyphen_case code1 = true -> hyphen_case code2 = true ->
  code1 <> code2 -> camelcase code1 <> camelcase code2.
Proof.
  intros H1 H2 Hne Heq. apply Hne.
  rewrite <- (kebab_camelcase_hyphen_case code1 H1).
  rewrite <- (kebab_camelcase_hyphen_case code2 H2).
  now rewrite Heq.
Qed.

Lemma warn_same_setting (options1 options2 : gmap jsstring JsValue) :
  options1 !! str "onerror" = options2 !! str "onerror" ->
  warn options1 = warn options2.
Proof. unfold warn, setting_of. now intros ->. Qed.

(** [onerror] makes no call, or one call with the message of its event. *)
Lemma onerror_shape
    (errors : gmap jsstring RuleEntry) (options : gmap jsstring JsValue)
    (doc : jsstring) (path : option jsstring) (error : Error) :
  onerror errors options doc path error = Returns [] \/
  onerror errors options doc path error = Throws [] \/
  exists f info,
    onerror errors options doc path error
      = Returns [ {| callee := f;
                     argument := build_message doc path info error
                                   (severity options (code error)) |} ].
Proof.
  unfold onerror, message_of. destruct (number_truthy _); [|now left].
  destruct (info_of errors _) as [info|]; [|now right; left].
  destruct (warn options); try (now right; left).
  right. right. eauto.
Qed.

(** X6. An override touches the rule it names and no other: setting
    [options[camelcase(code1)]] to any value, for a hyphen-case [code1]
    other than [onerror] (the key of the sink itself), leaves what
    [onerror] does for an event of a different hyphen-case code exactly as
    it was. *)
Theorem override_is_per_rule
    (errors : gmap jsstring RuleEntry) (options : gmap jsstring JsValue)
    (doc : jsstring) (path : option jsstring) (code1 : jsstring) (v : JsValue)
    (error : Error) :
  hyphen_case code1 = true -> hyphen_case (code error) = true ->
  code1 <> code error -> code1 <> str "onerror" ->
  onerror errors (<[camelcase code1 := v]> options) doc path error
    = onerror errors options doc path error.
Proof.
  intros H1 H2 Hne Hsink. unfold onerror.
  rewrite (severity_same_setting (<[camelcase code1 := v]> options) options (code error)).
  - rewrite (warn_same_setting (<[camelcase code1 := v]> options) options); [reflexivity|].
    apply lookup_insert_ne.
    exact (camelcase_hyphen_case_neq code1 (str "onerror") H1 eq_refl Hsink).
  - apply lookup_insert_ne. now apply camelcase_hyphen_case_neq.
Qed.

Lemma override_is_per_rule_witness :
  onerror sample_errors (<[camelcase (str "missing-doctype") := JBool false]> (with_sink []))
    (str "</x/>") None (event_at "end-tag-with-trailing-solidus" 1 5 4)
  = onerror sample_errors (with_sink []) (str "</x/>") None
      (event_at "end-tag-with-trailing-solidus" 1 5 4).
Proof.
  apply (override_is_per_rule sample_errors (with_sink []) (str "</x/>") None
           (str "missing-doctype") (JBool false)
           (event_at "end-tag-with-trailing-solidus" 1 5 4));
    [reflexivity | reflexivity | discriminate | discriminate].
Defined.

(** X7. The settings as the documentation of [ParseFields.onerror] lists
    them, for a sink that is a function: [false] or [0] turns the rule off;
    for a rule with a catalog entry, or one whose normalized name is not
    inherited from [Object.prototype], no setting, [true] or [1] sends one
    message that is a warning ([fatal: false]) and [2] sends one message
    that is fatal ([fatal: true]). *)
Theorem documented_levels
    (errors : gmap jsstring RuleEntry) (options : gmap jsstring JsValue)
    (doc : jsstring) (path : option jsstring) (error : Error)
    (setting : option JsValue) (f : nat) :
  options !! camelcase (code error) = setting ->
  warn options = JFunction f ->
  (setting = Some (JBool false) \/ setting = Some (JNumber (num 0)) ->
     onerror errors options doc path error = Returns []) /\
  (errors !! camelcase (code error) <> None \/ inherited (camelcase (code error)) = false ->
     (setting = None \/ setting = Some (JBool true) \/ setting = Some (JNumber (num 1)) ->
        exists m,
          onerror errors options doc path error = Returns [ {| callee := f; argument := m |} ] /\
          m_fatal m = JBool false) /\
     (setting = Some (JNumber (num 2)) ->
        exists m,
          onerror errors options doc path error = Returns [ {| callee := f; argument := m |} ] /\
          m_fatal m = JBool true)).
Proof.
  intros Hs Hwarn. split.
  - intros H. apply onerror_falsy. rewrite severity_unfold, Hs.
    destruct H as [-> | ->]; reflexivity.
  - intros Hfound.
    assert (Hinfo : exists info, info_of errors (camelcase (code error)) = Some info).
    { unfold info_of, errors_get.
      destruct (errors !! camelcase (code error)) as [own|]; [eauto|].
      destruct Hfound as [Hown | ->]; [congruence | eauto]. }
    destruct Hinfo as [info Hinfo].
    assert (Hlevel : severity options (code error)
                     = level_of (config_of (default JUndefined setting)))
      by (now rewrite severity_unfold, Hs).
    split; intros H;
      exists (build_message doc path info error (severity options (code error)));
      (split; [apply onerror_truthy; [| exact Hwarn | exact Hinfo] |
               cbn [m_fatal build_message]]);
      rewrite Hlevel.
    + destruct H as [-> | [-> | ->]]; reflexivity.
    + destruct H as [-> | [-> | ->]]; reflexivity.
    + rewrite H. reflexivity.
    + rewrite H. reflexivity.
Qed.

Lemma documented_levels_witness :
  exists m,
    onerror sample_errors (with_sink [(str "missingDoctype", JNumber (num 2))]) (str "a") None
      (event_at "missing-doctype" 1 1 0) = Returns [ {| callee := 0%nat; argument := m |} ] /\
    m_fatal m = JBool true.
Proof.
  destruct (documented_levels sample_errors
              (with_sink [(str "missingDoctype", JNumber (num 2))]) (str "a") None
              (event_at "missing-doctype" 1 1 0) (Some (JNumber (num 2))) 0%nat)
    as (_ & Hfound); [reflexivity | reflexivity |].
  destruct Hfound as [_ Hfatal]; [left; discriminate|].
  apply Hfatal. reflexivity.
Defined.

(** X8. The configuration decides whether a message is sent and its
    field [fatal], nothing else: any two messages sent for the same event
    under two configurations agree in every other field (text, note,
    position, name, file, rule id and url); and two configurations with the
    same sink under which the rule is not suppressed send the same messages
    up to [fatal]. *)
Theorem severity_only_sets_fatal
    (errors : gmap jsstring RuleEntry) (options1 options2 : gmap jsstring JsValue)
    (doc : jsstring) (path : option jsstring) (error : Error) :
  (forall m1 m2,
     In m1 (sent (onerror errors options1 doc path error)) ->
     In m2 (sent (onerror errors options2 doc path error)) ->
     without_fatal m1 = without_fatal m2) /\
  (warn options1 = warn options2 ->
   number_truthy (severity options1 (code error)) = true ->
   number_truthy (severity options2 (code error)) = true ->
   map without_fatal (sent (onerror errors options1 doc path error))
     = map without_fatal (sent (onerror errors options2 doc path error))).
Proof.
  split.
  - intros m1 m2 H1 H2.
    apply onerror_inv in H1 as (_ & info1 & Hinfo1 & ->).
    apply onerror_inv in H2 as (_ & info2 & Hinfo2 & ->).
    rewrite Hinfo1 in Hinfo2. injection Hinfo2 as ->. reflexivity.
  - intros Hwarn H1 H2. unfold onerror, message_of. rewrite H1, H2, Hwarn.
    destruct (info_of errors _); [|reflexivity].
    destruct (warn options2); reflexivity.
Qed.

Lemma severity_only_sets_fatal_witness :
  map without_fatal
    (sent (onerror sample_errors (with_sink [(str "missingDoctype", JNumber (num 2))])
             (str "a") None (event_at "missing-doctype" 1 1 0)))
  = map without_fatal
      (sent (onerror sample_errors (with_sink []) (str "a") None
               (event_at "missing-doctype" 1 1 0))).
Proof.
  apply (severity_only_sets_fatal sample_errors
           (with_sink [(str "missingDoctype", JNumber (num 2))]) (with_sink [])
           (str "a") None (event_at "missing-doctype" 1 1 0)); reflexivity.
Defined.

Lemma parse_events_in_event_order
    (errors : gmap jsstring RuleEntry) (options : gmap jsstring JsValue)
    (doc : jsstring) (path : option jsstring) (events : list Error) :
  sublist (map (fun m => (m_ruleId m, m_position m))
             (sent (parse_events errors options doc path events)))
          (map (fun error => (code error, place_of error)) events).
Proof.
  induction events as [|error events IH]; [constructor|].
  cbn [parse_events map].
  destruct (onerror_shape errors options doc path error) as [-> | [-> | (f & info & ->)]].
  - destruct (parse_events errors options doc path events);
      apply sublist_cons; exact IH.
  - apply sublist_nil_l.
  - destruct (parse_events errors options doc path events);
      apply sublist_skip; exact IH.
Qed.

(** X9. Messages reach the sink in the order of the events, at most one
    per event, each with the rule code and the range of its event: the
    sequence of (rule id, position) pairs sent is a subsequence of the
    events' (code, range) pairs.  Without [options.onerror] (absent or
    falsy) nothing is sent and nothing is raised. *)
Theorem reported_in_event_order
    (errors : gmap jsstring RuleEntry) (options : gmap jsstring JsValue)
    (doc : jsstring) (path : option jsstring) (events : list Error) :
  sublist (map (fun m => (m_ruleId m, m_position m))
             (sent (reported errors options doc path events)))
          (map (fun error => (code error, place_of error)) events) /\
  (ToBoolean (setting_of options (str "onerror")) = false ->
     reported errors options doc path events = Returns []).
Proof.
  unfold reported. destruct (ToBoolean _).
  - split; [apply parse_events_in_event_order | discriminate].
  - split; [apply sublist_nil_l | reflexivity].
Qed.

Lemma camel_key_letters (key : jsstring) :
  camel_key key = true -> forallb is_letter key = true.
Proof.
  destruct key as [|c rest]; [discriminate|]. cbn [camel_key forallb].
  intros H. apply andb_true_iff in H as [Hc ->].
  now rewrite (lower_is_letter _ Hc).
Qed.

(** X10. The readme and the reporter agree on links.  For a catalog key
    with an entry, the event of the code [kebab key] finds that entry, and
    the [url] of its message is the link target the documentation generator
    computes for the key: none under [url: false], otherwise the prefix
    followed by [kebab key]. *)
Theorem list_item_link_matches_url
    (errors : gmap jsstring RuleEntry) (options : gmap jsstring JsValue)
    (doc : jsstring) (path : option jsstring) (error : Error)
    (key : jsstring) (info : RuleEntry) (m : VFileMessage) :
  camel_key key = true ->
  errors !! key = Some info ->
  code error = kebab key ->
  In m (sent (onerror errors options doc path error)) ->
  m_url m = list_item_link info key.
Proof.
  intros Hkey Hinfo Hcode Hm. apply onerror_inv in Hm as (_ & found & Hfound & ->).
  rewrite Hcode, (camelcase_kebab_letters key (camel_key_letters key Hkey)) in Hfound.
  rewrite (info_of_own _ _ _ Hinfo) in Hfound. injection Hfound as <-.
  rewrite message_url, Hcode. reflexivity.
Qed.

Lemma list_item_link_matches_url_witness :
  exists m,
    In m (sent (onerror sample_errors (with_sink []) (str "a") None
                  (event_at "missing-doctype" 1 1 0))) /\
    m_url m = list_item_link
                (entry "Missing doctype before other content"
                       "Expected a `<!doctype html>` before anything else" (Some (JBool false)))
                (str "missingDoctype").
Proof.
  exists (expected_missing_doctype "1:1-1:1" None).
  split; [left; reflexivity|].
  apply (list_item_link_matches_url sample_errors (with_sink []) (str "a") None
           (event_at "missing-doctype" 1 1 0) (str "missingDoctype"));
    [reflexivity | reflexivity | reflexivity | left; reflexivity].
Defined.



(** X14. The fallback is not reached for a name that every object
    inherits: when the rule code has no catalog entry but its normalized
    name is a property of [Object.prototype] ([constructor], [toString],
    [valueOf], ...) and the level is truthy, [onerror] raises a [TypeError]
    and the sink is not called. *)
Theorem catalog_miss_inherited_throws
    (errors : gmap jsstring RuleEntry) (options : gmap jsstring JsValue)
    (doc : jsstring) (path : option jsstring) (error : Error) :
  errors !! camelcase (code error) = None ->
  inherited (camelcase (code error)) = true ->
  number_truthy (severity options (code error)) = true ->
  onerror errors options doc path error = Throws [].
Proof.
  intros Hmiss Hinh Ht. unfold onerror, message_of.
  now rewrite Ht, (info_of_miss_inherited _ _ Hmiss Hinh).
Qed.

Lemma catalog_miss_inherited_throws_witness :
  onerror sample_errors (with_sink [(str "toString", JNumber (num 2))]) (str "<a>") None
    (event_at "to-string" 1 1 0) = Throws [].
Proof.
  apply (catalog_miss_inherited_throws sample_errors
           (with_sink [(str "toString", JNumber (num 2))]) (str "<a>") None
           (event_at "to-string" 1 1 0)); reflexivity.
Defined.

(** * Further properties of [format] *)

Lemma charCodeAt_outside (doc : jsstring) (pos : Z) :
  (pos < 0 \/ Z.of_nat (length doc) <= pos)%Z -> charCodeAt doc pos = None.
Proof.
  intros H. unfold charCodeAt.
  destruct (Z.ltb_spec pos 0) as [Hneg | Hpos]; [reflexivity|].
  apply lookup_ge_None. lia.
Qed.

Section FormatScan.

Context (doc : jsstring) (error : Error).

Lemma replace_percent_c_no_percent (s rest : jsstring) :
  no_percent s = true ->
  replace_percent_c doc error 0 (s ++ rest) = s ++ replace_percent_c doc error 0 rest.
Proof.
  induction s as [|c s IH]; intros Hs; [reflexivity|].
  cbn [no_percent forallb] in Hs. apply andb_true_iff in Hs as [Hc Hs].
  apply negb_true_iff in Hc.
  change ((c :: s) ++ rest) with (c :: (s ++ rest)).
  rewrite replace_percent_c_cons by exact Hc. now rewrite IH.
Qed.

Lemma format_text (s rest : jsstring) :
  no_percent s = true ->
  format doc error (s ++ rest) = s ++ format doc error rest.
Proof.
  intros Hs. unfold format.
  rewrite replace_percent_c_no_percent by exact Hs.
  now apply replace_percent_x_no_percent.
Qed.

Lemma format_percent_x (rest : jsstring) :
  format doc error (str "%x" ++ rest) = replacement_x doc error ++ format doc error rest.
Proof.
  unfold format.
  change (str "%x" ++ rest) with (percent :: letter_x :: rest).
  change (replace_percent_c doc error 0 (percent :: letter_x :: rest))
    with (percent :: replace_percent_c doc error 0 (letter_x :: rest)).
  rewrite replace_percent_c_cons by reflexivity.
  apply replace_percent_x_placeholder.
Qed.

(** The replacement of a placeholder that does not select a [%] holds
    no [%]. *)
Lemma replacement_c_no_percent (groups : option (code_unit * jsstring)) :
  selects_percent doc error (PlaceC groups) = false ->
  no_percent (replacement_c doc error groups) = true.
Proof.
  unfold selects_percent, replacement_c, charAt.
  destruct (_ <? _)%Z; [reflexivity|].
  destruct (doc !! _) as [c|]; [|reflexivity].
  intros Hc. cbn [escape].
  destruct (c =? backtick); [reflexivity|].
  cbn. now rewrite Hc.
Qed.

Lemma format_percent_c (groups : option (code_unit * jsstring)) (rest : jsstring) :
  well_formed groups = true -> ends_placeholder groups rest = true ->
  selects_percent doc error (PlaceC groups) = false ->
  format doc error (placeholder_text groups ++ rest)
    = replacement_c doc error groups ++ format doc error rest.
Proof.
  intros Hwf Hend Hsel. unfold format.
  rewrite replace_percent_c_placeholder by assumption.
  apply replace_percent_x_no_percent. now apply replacement_c_no_percent.
Qed.

End FormatScan.

(** X11. At a start offset outside the source text (negative, or at or
    beyond its length, as for an error reported at the end of the input)
    every [%x] placeholder is replaced by [0xNAN], whatever text surrounds
    it. *)
Theorem percent_x_beyond_text
    (doc : jsstring) (error : Error) (pre post : jsstring) :
  (startOffset error < 0 \/ Z.of_nat (length doc) <= startOffset error)%Z ->
  format doc error (pre ++ str "%x" ++ post)
    = format doc error pre ++ str "0xNAN" ++ format doc error post.
Proof.
  intros Hout. unfold format.
  change (str "%x" ++ post) with (percent :: letter_x :: post).
  rewrite replace_percent_c_app_percent by lia.
  change (replace_percent_c doc error 0 (percent :: letter_x :: post))
    with (percent :: replace_percent_c doc error 0 (letter_x :: post)).
  rewrite replace_percent_c_cons by reflexivity.
  rewrite replace_percent_x_app by reflexivity.
  rewrite replace_percent_x_placeholder.
  unfold replacement_x. rewrite (charCodeAt_outside doc _ Hout).
  now rewrite <- !app_assoc.
Qed.

Lemma percent_x_beyond_text_witness :
  format (str "<a") (event_at "eof-in-tag" 1 3 2) (str "code `" ++ str "%x" ++ str "`")
  = format (str "<a") (event_at "eof-in-tag" 1 3 2) (str "code `")
      ++ str "0xNAN" ++ format (str "<a") (event_at "eof-in-tag" 1 3 2) (str "`").
Proof.
  apply (percent_x_beyond_text (str "<a") (event_at "eof-in-tag" 1 3 2)).
  right. vm_compute. discriminate.
Defined.

(** X12. On a template whose plain text holds no [%], the two chained
    replaces of [format] write what a single left-to-right scan writes:
    every piece rendered on its own ([%c] by the selected character or its
    backtick escape, nothing when the position is outside the text; [%x] by
    the hexadecimal code), provided no [%c] placeholder selects a [%] of the
    source text. *)
Theorem format_single_scan
    (doc : jsstring) (error : Error) (t : list piece) :
  well_placed t = true ->
  forallb (fun p => negb (selects_percent doc error p)) t = true ->
  format doc error (template_text t) = render doc error t.
Proof.
  induction t as [|p t IH]; intros Hwp Hsel; [reflexivity|].
  cbn [well_placed] in Hwp. apply andb_true_iff in Hwp as [Hp Hwp].
  cbn [forallb] in Hsel. apply andb_true_iff in Hsel as [Hs Hsel].
  apply negb_true_iff in Hs.
  unfold template_text, render in *. cbn [flat_map].
  rewrite <- (IH Hwp Hsel).
  destruct p as [s | groups |]; cbn [piece_text render_piece].
  - now apply format_text.
  - apply andb_true_iff in Hp as [Hwf Hend].
    now apply format_percent_c.
  - apply format_percent_x.
Qed.

Lemma format_single_scan_witness :
  format (str "a`c") (event_at "unexpected-character-in-attribute-name" 1 2 1)
    (template_text
       [Text (str "Unexpected `"); PlaceC None; Text (str "` after `");
        PlaceC (Some (hyphen, str "1")); Text (str "` ("); PlaceX; Text (str "), then `");
        PlaceC (Some (plus_sign, str "7")); Text (str "`")])
  = str "Unexpected `` ` `` after `a` (0x60), then ``".
Proof.
  rewrite (format_single_scan (str "a`c")
             (event_at "unexpected-character-in-attribute-name" 1 2 1)); reflexivity.
Defined.
